(** * tidaloader: the download queue store and the download manager

    A shallow embedding of [stores/downloadStore.js] (the Zustand store
    holding the four collections) and of [utils/downloadManager.js] (the
    scheduler loop and the client-side transfer), with the properties of
    the queue that the specification states.

    Conventions of the embedding:
    - a JavaScript string is a [string]; the store only compares strings,
      and [sanitizeFilename] inspects single characters;
    - a JavaScript number that the code uses as an integer is a [Z];
    - an optional property ([undefined] when absent) is an [option];
    - [Date.now()] is an oracle [Date_now : nat -> Z] giving the n-th
      reading of the wall clock; the number of readings made so far is
      threaded through the code that reads the clock;
    - an [async] function is a coroutine: its state between two [await]s
      is a value of an inductive type, and the JavaScript event loop is a
      step function resuming one suspended coroutine at a time. *)

From Stdlib Require Import ZArith String Ascii List Lia DecimalString.
From stdpp Require Import base option list gmap strings.

Local Open Scope string_scope.
Local Open Scope list_scope.

(** ** Data model *)

(** The [status] property of a queue item. *)
Inductive status : Type :=
| queued
| downloading_
| completed_
| failed_.

(** A track descriptor as the pages build it before calling [addToQueue]. *)
Record track : Type := Track {
  t_tidal_id : Z;
  t_title : string;
  t_artist : string;
  t_album : option string
}.

(** A queue item: the descriptor's properties (copied by the spread
    [...track]) and the lifecycle properties the store adds. *)
Record item : Type := Item {
  tidal_id : Z;
  title : string;
  artist : string;
  album : option string;
  item_id : string;             (* id *)
  item_status : status;         (* status *)
  progress : Z;
  addedAt : Z;
  startedAt : option Z;
  completedAt : option Z;
  failedAt : option Z;
  filename : option string;
  error : option string
}.

(** The state held by [useDownloadStore]. *)
Record store : Type := Store {
  queue : list item;
  downloading : list item;
  completed : list item;
  failed : list item;
  quality : string;
  maxConcurrent : Z
}.

#[global] Instance status_eq_dec : EqDecision status.
Proof. solve_decision. Defined.
#[global] Instance track_eq_dec : EqDecision track.
Proof. solve_decision. Defined.
#[global] Instance item_eq_dec : EqDecision item.
Proof. solve_decision. Defined.
#[global] Instance store_eq_dec : EqDecision store.
Proof. solve_decision. Defined.

(** The store as [create] builds it; [mc] is the [maxConcurrent] setting
    (3 in the source, which has no action changing it). *)
Definition initial_store (mc : Z) : store :=
  Store [] [] [] [] "LOSSLESS" mc.

(** Partial updates [set({queue: q})] and the like, merged into the state. *)
Definition set_queue (q : list item) (s : store) : store :=
  Store q (downloading s) (completed s) (failed s) (quality s) (maxConcurrent s).
Definition set_downloading (d : list item) (s : store) : store :=
  Store (queue s) d (completed s) (failed s) (quality s) (maxConcurrent s).
Definition set_completed (c : list item) (s : store) : store :=
  Store (queue s) (downloading s) c (failed s) (quality s) (maxConcurrent s).
Definition set_failed (f : list item) (s : store) : store :=
  Store (queue s) (downloading s) (completed s) f (quality s) (maxConcurrent s).

(** Template literals print integers in decimal (below [10 ^ 21], as
    catalog ids and millisecond timestamps are). *)
Definition show_Z (z : Z) : string := NilZero.string_of_int (Z.to_int z).

(** [arr.find(t => t.id === trackId)]: the first item with that id. *)
Definition find_id (trackId : string) (l : list item) : option item :=
  List.find (fun t => bool_decide (item_id t = trackId)) l.

(** [arr.filter(t => t.id !== trackId)]: every item with another id. *)
Definition without_id (trackId : string) (l : list item) : list item :=
  filter (fun t => item_id t ≠ trackId) l.

(** ** Code that reads the clock *)

(** From the number of clock readings made so far to a result and the
    number of readings made after it. *)
Definition Clocked (A : Type) : Type := nat -> A * nat.

#[global] Instance Clocked_mret : MRet Clocked := fun A a n => (a, n).
#[global] Instance Clocked_bind : MBind Clocked :=
  fun A B k m n => let (a, n') := m n in k a n'.

(** ** The store's actions *)

Section Store.

(** The n-th reading of [Date.now()]. *)
Variable Date_now : nat -> Z.

Definition now : Clocked Z := fun n => (Date_now n, S n).

(** The object built for one surviving track in [addToQueue]: the id is
    evaluated before [addedAt], each from its own clock reading. *)
Definition new_item (t : track) : Clocked item :=
  t_id ← now ;
  t_added ← now ;
  mret {| tidal_id := t_tidal_id t; title := t_title t;
         artist := t_artist t; album := t_album t;
         item_id := show_Z (t_tidal_id t) +:+ "-" +:+ show_Z t_id;
         item_status := queued; progress := 0; addedAt := t_added;
         startedAt := None; completedAt := None; failedAt := None;
         filename := None; error := None |}.

(** [.map(...)] over the surviving tracks, left to right. *)
Fixpoint new_items (ts : list track) : Clocked (list item) :=
  match ts with
  | [] => mret []
  | t :: ts' => i ← new_item t ; is' ← new_items ts' ; mret (i :: is')
  end.

(** The [Set] of catalog ids already in queue, downloading or completed. *)
Definition existingIds (s : store) : gset Z :=
  list_to_set ((tidal_id <$> queue s) ++ (tidal_id <$> downloading s)
               ++ (tidal_id <$> completed s)).

(** [tracks.filter(track => !existingIds.has(track.tidal_id))] *)
Definition survivors (tracks : list track) (s : store) : list track :=
  filter (fun t => t_tidal_id t ∉ existingIds s) tracks.

Definition addToQueue (tracks : list track) (s : store) : Clocked store :=
  newTracks ← new_items (survivors tracks s) ;
  if decide (length newTracks = 0%nat) then mret s
  else mret (set_queue (queue s ++ newTracks) s).

(** The two numbers [addToQueue] logs: tracks added and duplicates
    skipped ([tracks.length - newTracks.length]). *)
Definition addedCount (tracks : list track) (s : store) : nat :=
  length (survivors tracks s).
Definition duplicateCount (tracks : list track) (s : store) : nat :=
  length tracks - length (survivors tracks s).

Definition removeFromQueue (trackId : string) (s : store) : store :=
  set_queue (without_id trackId (queue s)) s.

Definition startDownload (trackId : string) (s : store) : Clocked store :=
  match find_id trackId (queue s) with
  | None => mret s
  | Some t =>
      t_started ← now ;
      mret (Store (without_id trackId (queue s))
                 (downloading s ++
                    [ {| tidal_id := tidal_id t; title := title t;
                         artist := artist t; album := album t;
                         item_id := item_id t;
                         item_status := downloading_;
                         progress := progress t; addedAt := addedAt t;
                         startedAt := Some t_started;
                         completedAt := completedAt t;
                         failedAt := failedAt t;
                         filename := filename t; error := error t |} ])
                 (completed s) (failed s) (quality s) (maxConcurrent s))
  end.

(** [{...t, progress}] *)
Definition with_progress (p : Z) (t : item) : item :=
  {| tidal_id := tidal_id t; title := title t; artist := artist t;
     album := album t; item_id := item_id t; item_status := item_status t;
     progress := p; addedAt := addedAt t; startedAt := startedAt t;
     completedAt := completedAt t; failedAt := failedAt t;
     filename := filename t; error := error t |}.

Definition updateProgress (trackId : string) (p : Z) (s : store) : store :=
  set_downloading
    ((fun t => if decide (item_id t = trackId) then with_progress p t else t)
       <$> downloading s) s.

Definition completeDownload (trackId : string) (fname : string) (s : store)
  : Clocked store :=
  match find_id trackId (downloading s) with
  | None => mret s
  | Some t =>
      t_done ← now ;
      mret (Store (queue s)
                 (without_id trackId (downloading s))
                 (completed s ++
                    [ {| tidal_id := tidal_id t; title := title t;
                         artist := artist t; album := album t;
                         item_id := item_id t;
                         item_status := completed_;
                         progress := 100; addedAt := addedAt t;
                         startedAt := startedAt t;
                         completedAt := Some t_done;
                         failedAt := failedAt t;
                         filename := Some fname; error := error t |} ])
                 (failed s) (quality s) (maxConcurrent s))
  end.

Definition failDownload (trackId : string) (err : string) (s : store)
  : Clocked store :=
  match find_id trackId (downloading s) with
  | None => mret s
  | Some t =>
      t_failed ← now ;
      mret (Store (queue s)
                 (without_id trackId (downloading s))
                 (completed s)
                 (failed s ++
                    [ {| tidal_id := tidal_id t; title := title t;
                         artist := artist t; album := album t;
                         item_id := item_id t;
                         item_status := failed_;
                         progress := progress t; addedAt := addedAt t;
                         startedAt := startedAt t;
                         completedAt := completedAt t;
                         failedAt := Some t_failed;
                         filename := filename t; error := Some err |} ])
                 (quality s) (maxConcurrent s))
  end.

(** [{...track, status: "queued", error: undefined, progress: 0}] *)
Definition requeued (t : item) : item :=
  {| tidal_id := tidal_id t; title := title t; artist := artist t;
     album := album t; item_id := item_id t; item_status := queued;
     progress := 0; addedAt := addedAt t; startedAt := startedAt t;
     completedAt := completedAt t; failedAt := failedAt t;
     filename := filename t; error := None |}.

Definition retryFailed (trackId : string) (s : store) : store :=
  match find_id trackId (failed s) with
  | None => s
  | Some t =>
      Store (queue s ++ [requeued t]) (downloading s) (completed s)
            (without_id trackId (failed s)) (quality s) (maxConcurrent s)
  end.

Definition clearCompleted (s : store) : store := set_completed [] s.
Definition clearFailed (s : store) : store := set_failed [] s.
Definition setQuality (q : string) (s : store) : store :=
  Store (queue s) (downloading s) (completed s) (failed s) q (maxConcurrent s).

End Store.

(** ** The download manager *)

(** *** File names *)

(** The character U+0022, which the regular expression lists. *)
Definition dquote : ascii := ascii_of_nat 34.

(** The character class of the regular expression [invalid]: the nine
    characters less-than, greater-than, colon, double quote, slash,
    backslash, bar, question mark and star. *)
Definition invalid (c : ascii) : bool :=
  existsb (Ascii.eqb c) ["<"; ">"; ":"; dquote; "/"; "\"; "|"; "?"; "*"]%char.

(** White space and line terminators that [trim] strips, among the code
    units below 256: TAB, LF, VT, FF, CR, SP and NBSP. *)
Definition white (c : ascii) : bool :=
  existsb (Nat.eqb (nat_of_ascii c)) [9; 10; 11; 12; 13; 32; 160]%nat.

(** [s.replace(re, "_")] for a global one-character class [re]. *)
Fixpoint replace_class (cls : ascii -> bool) (by_ : ascii) (s : string) : string :=
  match s with
  | EmptyString => EmptyString
  | String c s' => String (if cls c then by_ else c) (replace_class cls by_ s')
  end.

Fixpoint trimStart (s : string) : string :=
  match s with
  | EmptyString => EmptyString
  | String c s' => if white c then trimStart s' else s
  end.

Fixpoint trimEnd (s : string) : string :=
  match s with
  | EmptyString => EmptyString
  | String c s' =>
      match trimEnd s' with
      | EmptyString => if white c then EmptyString else String c EmptyString
      | r => String c r
      end
  end.

Definition trim (s : string) : string := trimEnd (trimStart s).

Definition sanitizeFilename (fname : string) : string :=
  trim (replace_class invalid "_"%char fname).

(** The argument [`${track.artist} - ${track.title}.flac`] that
    [downloadTrackClientSide] sanitizes. *)
Definition flac_name (artist_ title_ : string) : string :=
  artist_ +:+ " - " +:+ title_ +:+ ".flac".

(** *** Coroutines *)

(** Where [downloadTrackClientSide] is suspended. *)
Inductive phase : Type :=
| AwaitStreamUrl                          (* await api.get(...) *)
| AwaitFetch                              (* await fetch(stream_url, {signal}) *)
| AwaitRead (totalBytes receivedBytes : Z) (* await reader.read() *)
| AwaitRateLimit.                         (* await this.sleep(1000), last line *)

(** Where one call of [start()] is suspended: in one of its two sleeps, or
    in [await this.downloadTrack(track)], that is wherever the transfer of
    [track] is suspended. *)
Inductive task : Type :=
| Sleeping (ms : Z)
| Transferring (track : item) (ctrl : nat) (ph : phase).

(** What the event loop resumes a suspended coroutine with. *)
Inductive response : Type :=
| Timer                                   (* the setTimeout of sleep fired *)
| StreamData (stream_url : option string) (* api.get resolved *)
| Response (ok : bool) (status : Z) (statusText : string)
           (contentLength : option Z)     (* fetch resolved; the header
                                             parsed, if present and numeric *)
| Chunk (len : Z)                         (* read: {done: false, value} *)
| Done                                    (* read: {done: true} *)
| Rejected (message : string)             (* rejected with an Error *)
| AbortError.                             (* rejected: the signal was aborted *)

(** Everything the coroutines share: the store, the clock, and the fields
    of the [DownloadManager] singleton. [controllers] holds
    [signal.aborted] of every [AbortController] created so far, and
    [activeDownloads] maps a track id to its controller. *)
Record runtime : Type := Runtime {
  st : store;
  reads : nat;
  isProcessing : bool;
  activeDownloads : gmap string nat;
  controllers : list bool
}.

Record world : Type := World {
  rt : runtime;
  tasks : list task
}.

#[global] Instance phase_eq_dec : EqDecision phase.
Proof. solve_decision. Defined.
#[global] Instance task_eq_dec : EqDecision task.
Proof. solve_decision. Defined.
#[global] Instance runtime_eq_dec : EqDecision runtime.
Proof. solve_decision. Defined.
#[global] Instance world_eq_dec : EqDecision world.
Proof. solve_decision. Defined.

(** What the presentation layer and the event loop can do. *)
Inductive event : Type :=
| Start
| Stop
| AddToQueue (tracks : list track)
| RemoveFromQueue (trackId : string)
| RetryFailed (trackId : string)
| ClearCompleted
| ClearFailed
| SetQuality (q : string)
| Resume (i : nat) (r : response).

Definition initial_world (mc : Z) : world :=
  World (Runtime (initial_store mc) 0 false ∅ []) [].

(** [stream_url] is truthy: present and not the empty string. *)
Definition truthy (o : option string) : bool :=
  match o with
  | Some u => negb (bool_decide (u = ""))
  | None => false
  end.

(** JavaScript numbers are IEEE 754 binary64 values: the quotient and the
    product of [Math.round((receivedBytes / totalBytes) * 100)] are each
    rounded to the nearest value with a significand of 53 bits, ties to the
    even significand. *)

(** The integer nearest to [n / d], ties to the even one, for [0 <= n] and
    [0 < d]. *)
Definition nearest_even (n d : Z) : Z :=
  let q := (n `div` d)%Z in
  let r := (n `mod` d)%Z in
  if (2 * r <? d)%Z then q
  else if (d <? 2 * r)%Z then (q + 1)%Z
  else if Z.even q then q else (q + 1)%Z.

(** The binary64 value nearest to [n / d], for [0 < n] and [0 < d], as a
    significand [m] and an exponent [e]: the value is [m * 2 ^ e], where
    [e] is such that [n / d] scaled by it has 53 bits. Overflow to Infinity
    and subnormal results are left out: they need a quotient of at least
    [2 ^ 1024] or below [2 ^ -1022]. *)
Definition binary64 (n d : Z) : Z * Z :=
  let scaled (e : Z) :=
    if (0 <=? e)%Z then (n, d * 2 ^ e)%Z else (n * 2 ^ (- e), d)%Z in
  let e0 := (Z.log2 n - Z.log2 d - 52)%Z in
  let e :=
    if ((scaled e0).1 `div` (scaled e0).2 <? 2 ^ 52)%Z then (e0 - 1)%Z
    else e0 in
  (nearest_even (scaled e).1 (scaled e).2, e).

(** [Math.round] of the value [m * 2 ^ e]: the nearest integer, ties
    upwards. *)
Definition Math_round (m e : Z) : Z :=
  if (0 <=? e)%Z then (m * 2 ^ e)%Z
  else ((2 * m + 2 ^ (- e)) `div` 2 ^ (- e + 1))%Z.

(** [Math.round((receivedBytes / totalBytes) * 100)], for [0 < totalBytes]
    (the source tests it). Byte counts are integers, which JavaScript
    holds exactly below [2 ^ 53]. *)
Definition percent (receivedBytes totalBytes : Z) : Z :=
  if (receivedBytes =? 0)%Z then 0%Z
  else
    let (m1, e1) := binary64 (Z.abs receivedBytes) totalBytes in
    let (m2, e2) :=
      if (0 <=? e1)%Z then binary64 (m1 * 2 ^ e1 * 100)%Z 1%Z
      else binary64 (m1 * 100)%Z (2 ^ (- e1))%Z in
    Math_round (Z.sgn receivedBytes * m2)%Z e2.

(** [controller.abort()] *)
Definition abort (ctrl : nat) (cs : list bool) : list bool := <[ctrl := true]> cs.

(** [signal.aborted] *)
Definition aborted (ctrl : nat) (r : runtime) : bool :=
  bool_decide (controllers r !! ctrl = Some true).

Section Manager.

Variable Date_now : nat -> Z.

(** A store action reading the clock, run on the shared state. *)
Definition run_store (f : store -> Clocked store) (r : runtime) : runtime :=
  let (s', n') := f (st r) (reads r) in
  Runtime s' n' (isProcessing r) (activeDownloads r) (controllers r).

(** A store action that does not read it. *)
Definition on_store (f : store -> store) (r : runtime) : runtime :=
  Runtime (f (st r)) (reads r) (isProcessing r) (activeDownloads r)
          (controllers r).

(** [downloadTrackClientSide] up to its first [await]: the item moves to
    downloading, a controller is created and registered, and the request
    for the stream URL is sent. *)
Definition downloadTrackClientSide (track : item) (r : runtime)
  : runtime * task :=
  let r1 := run_store (startDownload Date_now (item_id track)) r in
  let ctrl := length (controllers r1) in
  (Runtime (st r1) (reads r1) (isProcessing r1)
           (<[item_id track := ctrl]> (activeDownloads r1))
           (controllers r1 ++ [false]),
   Transferring track ctrl AwaitStreamUrl).

(** [DOWNLOAD_MODE] is the constant ["client"], so [downloadTrack] always
    takes its client-side branch. *)
Definition downloadTrack (track : item) (r : runtime) : runtime * task :=
  downloadTrackClientSide track r.

(** The [finally] clause, after which the transfer sleeps a second. *)
Definition release (track : item) (ctrl : nat) (r : runtime)
  : runtime * option task :=
  (Runtime (st r) (reads r) (isProcessing r)
           (delete (item_id track) (activeDownloads r)) (controllers r),
   Some (Transferring track ctrl AwaitRateLimit)).

(** The [catch] clause for an error that is not an abort, then [finally]. *)
Definition caught (track : item) (ctrl : nat) (message : string) (r : runtime)
  : runtime * option task :=
  release track ctrl (run_store (failDownload Date_now (item_id track) message) r).

(** The [catch] clause for [error.name === "AbortError"], then [finally]. *)
Definition cancelled (track : item) (ctrl : nat) (r : runtime)
  : runtime * option task :=
  release track ctrl
    (run_store (failDownload Date_now (item_id track) "Download cancelled") r).

(** One turn of [while (this.isProcessing)] in [start], up to its next
    [await]; [None] when the loop ends. *)
Definition loop (r : runtime) : runtime * option task :=
  if isProcessing r then
    let s := st r in
    if bool_decide ((Z.of_nat (length (downloading s)) < maxConcurrent s)%Z
                    ∧ (0 < length (queue s))%nat) then
      match queue s !! 0%nat with
      | Some track => let (r', t) := downloadTrack track r in (r', Some t)
      | None => (r, None)
      end
    else if bool_decide (length (downloading s) = 0%nat
                         ∧ length (queue s) = 0%nat) then
      (r, Some (Sleeping 1000))
    else
      (r, Some (Sleeping 500))
  else (r, None).

Definition with_isProcessing (b : bool) (r : runtime) : runtime :=
  Runtime (st r) (reads r) b (activeDownloads r) (controllers r).

(** [start()]: returns at once when already running; otherwise sets the
    flag and runs the loop up to its first [await]. *)
Definition start (w : world) : world :=
  if isProcessing (rt w) then w
  else
    let (r', t) := loop (with_isProcessing true (rt w)) in
    World r' (tasks w ++ option_list t).

(** [stop()]: clears the flag, aborts every registered controller and
    empties the map. *)
Definition stop (w : world) : world :=
  World (Runtime (st (rt w)) (reads (rt w)) false ∅
           (foldr abort (controllers (rt w))
                  (snd <$> map_to_list (activeDownloads (rt w)))))
        (tasks w).

(** The continuation of a suspended transfer. An aborted signal rejects
    the pending [fetch] or [read] with an AbortError, and nothing else
    does. [totalBytes] is [parseInt] of the content-length header or of
    ["0"]; a missing or non-numeric header counts as 0, since the only use
    of the number is the test [totalBytes > 0]. *)
Definition resume_transfer (track : item) (ctrl : nat) (ph : phase)
    (resp : response) (r : runtime) : option (runtime * option task) :=
  match ph, resp with
  | AwaitStreamUrl, StreamData url =>
      if truthy url then Some (r, Some (Transferring track ctrl AwaitFetch))
      else Some (caught track ctrl "No stream URL returned" r)
  | AwaitStreamUrl, Rejected message => Some (caught track ctrl message r)
  | AwaitFetch, AbortError =>
      if aborted ctrl r then Some (cancelled track ctrl r) else None
  | AwaitFetch, Response ok status_ statusText contentLength =>
      if aborted ctrl r then None
      else if ok then
        Some (r, Some (Transferring track ctrl
                         (AwaitRead (default 0%Z contentLength) 0)))
      else
        Some (caught track ctrl
                ("HTTP " +:+ show_Z status_ +:+ ": " +:+ statusText) r)
  | AwaitFetch, Rejected message =>
      if aborted ctrl r then None else Some (caught track ctrl message r)
  | AwaitRead totalBytes receivedBytes, AbortError =>
      if aborted ctrl r then Some (cancelled track ctrl r) else None
  | AwaitRead totalBytes receivedBytes, Chunk len =>
      if aborted ctrl r then None
      else
        let receivedBytes' := (receivedBytes + len)%Z in
        let r' :=
          if bool_decide (0 < totalBytes)%Z then
            on_store (updateProgress (item_id track)
                        (percent receivedBytes' totalBytes)) r
          else r in
        Some (r', Some (Transferring track ctrl
                          (AwaitRead totalBytes receivedBytes')))
  | AwaitRead totalBytes receivedBytes, Done =>
      if aborted ctrl r then None
      else
        let fname := sanitizeFilename (flac_name (artist track) (title track)) in
        Some (release track ctrl
                (run_store (completeDownload Date_now (item_id track) fname) r))
  | AwaitRead totalBytes receivedBytes, Rejected message =>
      if aborted ctrl r then None else Some (caught track ctrl message r)
  | AwaitRateLimit, Timer => Some (loop r)
  | _, _ => None
  end.

Definition resume_task (t : task) (resp : response) (r : runtime)
  : option (runtime * option task) :=
  match t, resp with
  | Sleeping _, Timer => Some (loop r)
  | Sleeping _, _ => None
  | Transferring track ctrl ph, _ => resume_transfer track ctrl ph resp r
  end.

(** The suspended coroutines after the [i]-th was resumed. *)
Definition put_task (i : nat) (t : option task) (ts : list task) : list task :=
  match t with
  | Some t' => <[i := t']> ts
  | None => delete i ts
  end.

Definition step (e : event) (w : world) : option world :=
  match e with
  | Start => Some (start w)
  | Stop => Some (stop w)
  | AddToQueue tracks =>
      Some (World (run_store (addToQueue Date_now tracks) (rt w)) (tasks w))
  | RemoveFromQueue trackId =>
      Some (World (on_store (removeFromQueue trackId) (rt w)) (tasks w))
  | RetryFailed trackId =>
      Some (World (on_store (retryFailed trackId) (rt w)) (tasks w))
  | ClearCompleted => Some (World (on_store clearCompleted (rt w)) (tasks w))
  | ClearFailed => Some (World (on_store clearFailed (rt w)) (tasks w))
  | SetQuality q => Some (World (on_store (setQuality q) (rt w)) (tasks w))
  | Resume i resp =>
      t ← tasks w !! i;
      '(r', t') ← resume_task t resp (rt w);
      Some (World r' (put_task i t' (tasks w)))
  end.

(** Running a list of events from a world. *)
Fixpoint run (es : list event) (w : world) : option world :=
  match es with
  | [] => Some w
  | e :: es' => w' ← step e w; run es' w'
  end.

(** The worlds reachable from the initial one. *)
Inductive reachable (mc : Z) : world -> Prop :=
| reach_init : reachable mc (initial_world mc)
| reach_step w e w' :
    reachable mc w -> step e w = Some w' -> reachable mc w'.

(** The worlds reachable from [w] when only the event loop acts. *)
Inductive settles (w : world) : world -> Prop :=
| settles_here : settles w w
| settles_resume w1 i resp w2 :
    settles w w1 -> step (Resume i resp) w1 = Some w2 -> settles w w2.

End Manager.

(** * Vocabulary of the properties *)

(** The ids of a collection, in order. *)
Definition ids (l : list item) : list string := item_id <$> l.

(** The catalog ids held in queue, downloading and completed. *)
Definition catalog_ids (s : store) : list Z :=
  (tidal_id <$> queue s) ++ (tidal_id <$> downloading s)
    ++ (tidal_id <$> completed s).

(** A clock that stays within one millisecond, and one that advances by a
    millisecond at every reading. *)
Definition frozen : nat -> Z := fun _ => 1700000000000%Z.
Definition ticking : nat -> Z := fun n => (1700000000000 + Z.of_nat n)%Z.

(** Two descriptors of the same catalog track. *)
Definition trackA : track := Track 1 "A" "" None.
Definition trackB : track := Track 1 "B" "" None.

(** The store after [addToQueue([A, B])] on the initial store, within one
    millisecond. *)
Definition twice_queued : store :=
  (addToQueue frozen [trackA; trackB] (initial_store 3) 0).1.

(** [f1; f2; ...] applied in turn to the initial store, threading the
    clock. *)
Definition after (fs : list (store -> Clocked store)) : store :=
  (foldl (fun sn f => f sn.1 sn.2) (initial_store 3, 0%nat) fs).1.

(** The store after a track was queued, started and failed, twice over,
    within one millisecond. *)
Definition twice_failed : store :=
  after [addToQueue frozen [trackA];
         startDownload frozen "1-1700000000000";
         failDownload frozen "1-1700000000000" "HTTP 404";
         addToQueue frozen [trackA];
         startDownload frozen "1-1700000000000";
         failDownload frozen "1-1700000000000" "HTTP 404"].

(** [removeFromQueue(trackId)] takes at most one item out of the queue. *)
Definition removes_at_most_one (trackId : string) (s : store) : Prop :=
  (length (queue s) <= length (queue (removeFromQueue trackId s)) + 1)%nat.

(** [retryFailed(trackId)] takes exactly one item [t] out of failed and
    puts it, reset, at the tail of the queue. *)
Definition retry_moves_one (trackId : string) (s : store) : Prop :=
  exists l1 t l2 t',
    failed s = l1 ++ t :: l2 /\ item_id t = trackId /\
    failed (retryFailed trackId s) = l1 ++ l2 /\
    queue (retryFailed trackId s) = queue s ++ [t'] /\
    progress t' = 0%Z /\ error t' = None /\
    tidal_id t' = tidal_id t /\ title t' = title t /\ artist t' = artist t.

(** The capacity invariant: the setting is [mc] and downloading holds at
    most [mc] items. *)
Definition within_capacity (mc : Z) (r : runtime) : Prop :=
  maxConcurrent (st r) = mc /\
  (Z.of_nat (length (downloading (st r))) <= mc)%Z.

(** Every registered controller was created. *)
Definition controllers_allocated (r : runtime) : Prop :=
  forall trackId c,
    activeDownloads r !! trackId = Some c -> (c < length (controllers r))%nat.

Definition sound (mc : Z) (r : runtime) : Prop :=
  within_capacity mc r /\ controllers_allocated r.

(** Five descriptors of five catalog tracks. *)
Definition five : list track :=
  (fun k => Track k "T" "X" None) <$> [1; 2; 3; 4; 5]%Z.

(** The world after [tracks] were enqueued in an initial world and
    [start()] was called. *)
Definition started (Date_now : nat -> Z) (mc : Z) (tracks : list track)
  : world :=
  start Date_now
    (World (run_store (addToQueue Date_now tracks) (rt (initial_world mc)))
           []).

(** A transfer that has not reached its final sleep. *)
Definition active (ph : phase) : bool :=
  match ph with
  | AwaitRateLimit => false
  | _ => true
  end.

(** Downloading holds at most one item, and only while the coroutine [t]
    is in the transfer of an item with that id. *)
Definition owns (d : list item) (t : option task) : Prop :=
  (length d <= 1)%nat /\
  forall x, x ∈ d ->
    exists track ctrl ph,
      t = Some (Transferring track ctrl ph) /\ active ph = true /\
      item_id x = item_id track.

(** One coroutine at most, owning whatever is in downloading. *)
Definition serial (w : world) : Prop :=
  exists t, tasks w = option_list t /\ owns (downloading (st (rt w))) t.

(** A world with two calls of [start()] suspended, each in the fetch of
    its own transfer: the first call was stopped and a second one made
    before the first had seen the abort. *)
Definition two_in_flight_trace : list event :=
  [AddToQueue five; Start; Resume 0 (StreamData (Some "u")); Stop; Start;
   Resume 0 AbortError; Resume 0 Timer; Resume 1 (StreamData (Some "u"));
   Resume 0 (StreamData (Some "u"))].

Definition two_in_flight : world :=
  default (initial_world 2) (run ticking two_in_flight_trace (initial_world 2)).

(** A world with one transfer suspended in its fetch, and the three
    worlds that follow [stop()]: stopped, then resumed by the AbortError,
    then resumed from the final sleep. *)
Definition one_in_flight : world :=
  default (initial_world 2)
    (run ticking [AddToQueue five; Start; Resume 0 (StreamData (Some "u"))]
       (initial_world 2)).

Definition stopped : world := stop one_in_flight.
Definition stopped_aborted : world :=
  default stopped (step ticking (Resume 0 AbortError) stopped).

(** In [w'], downloading is empty and every item that was downloading in
    [w] is in failed with the error [text]. *)
Definition all_failed_with (text : string) (w w' : world) : Prop :=
  downloading (st (rt w')) = [] /\
  forall x, x ∈ downloading (st (rt w)) ->
    exists x', x' ∈ failed (st (rt w')) /\ item_id x' = item_id x /\
               error x' = Some text.





(** The world right after [start()] with five tracks queued: the one
    transfer awaits its stream URL. *)
Definition just_started : world := started ticking 2 five.

(** The file name is the template with the invalid characters replaced
    and nothing else done to it. *)
Definition named_by_template (artist_ title_ : string) : Prop :=
  sanitizeFilename (flac_name artist_ title_) =
    replace_class invalid "_"%char (flac_name artist_ title_).

(** * Further code *)

(** ** Statistics *)

(** The object [getStats] returns. *)
Record stats : Type := Stats {
  n_queued : nat;
  n_downloading : nat;
  n_completed : nat;
  n_failed : nat;
  n_total : nat
}.

Definition getStats (s : store) : stats :=
  {| n_queued := length (queue s);
     n_downloading := length (downloading s);
     n_completed := length (completed s);
     n_failed := length (failed s);
     n_total := length (queue s) + length (downloading s)
                + length (completed s) + length (failed s) |}.

(** ** The theme hook *)

(** [themeNames]: the class name of a theme and its label. *)
Definition themeNames : list (string * string) :=
  [("light", "Light"); ("dark", "Dark");
   ("catppuccin-latte", "Catppuccin Latte");
   ("catppuccin-frappe", "Catppuccin Frappe");
   ("catppuccin-macchiato", "Catppuccin Macchiato");
   ("catppuccin-mocha", "Catppuccin Mocha");
   ("matcha", "Matcha"); ("nord", "Nord"); ("gruvbox", "Gruvbox");
   ("dracula", "Dracula"); ("solarized-light", "Solarized Light");
   ("solarized-dark", "Solarized Dark"); ("rose-pine", "Rose Pine");
   ("tokyo-night", "Tokyo Night"); ("crimson", "Crimson");
   ("kanagawa", "Kanagawa"); ("one-dark", "One Dark");
   ("one-light", "One Light"); ("everforest", "Everforest");
   ("cotton-candy-dreams", "Cotton Candy"); ("sea-green", "Sea Green")].

(** [Object.keys(themeNames)] *)
Definition theme_keys : list string := fst <$> themeNames.

(** The initializer of the [theme] state. [storage] is [localStorage], absent
    when [typeof localStorage] is undefined; [prefersDark] is
    [window.matchMedia('(prefers-color-scheme: dark)').matches], absent when
    [typeof window] is undefined. A stored empty string is falsy. *)
Definition initialTheme (storage : option (gmap string string))
    (prefersDark : option bool) : string :=
  match storage ≫= (fun m => m !! "theme") with
  | Some savedTheme =>
      if decide (savedTheme = "") then
        (if default false prefersDark then "dark" else "light")
      else savedTheme
  | None => if default false prefersDark then "dark" else "light"
  end.

(** [setTheme(newTheme)]: the new state and the storage after
    [localStorage.setItem('theme', newTheme)]. *)
Definition setTheme (newTheme : string) (storage : gmap string string)
  : string * gmap string string :=
  (newTheme, <["theme" := newTheme]> storage).

(** The white space that makes a class token invalid. *)
Definition token_space (c : ascii) : bool :=
  existsb (Nat.eqb (nat_of_ascii c)) [9; 10; 12; 13; 32]%nat.

Fixpoint has_space (s : string) : bool :=
  match s with
  | EmptyString => false
  | String c s' => token_space c || has_space s'
  end.

(** [classList.add(token)], which throws for an empty token and for one
    with white space. *)
Definition classList_add (token : string) (classes : gset string)
  : option (gset string) :=
  if decide (token = "") then None
  else if has_space token then None
  else Some (classes ∪ {[token]}).

(** The effect that runs when [theme] changes, on the class list of the
    document element: every known theme class is removed, then the class of
    the theme is added unless the theme is light. *)
Definition applyTheme (theme : string) (classes : gset string)
  : option (gset string) :=
  let cleared := foldl (fun cl t => cl ∖ {[t]}) classes theme_keys in
  if decide (theme = "light") then Some cleared
  else classList_add theme cleared.

(** ** The search page *)

(** A search result, as far as [handleAddToQueue] reads it. *)
Record result : Type := Result {
  r_id : Z;
  r_title : string;
  r_artist : string;
  r_album : option string
}.

Definition toggleTrack (trackId : Z) (selected : gset Z) : gset Z :=
  if decide (trackId ∈ selected) then selected ∖ {[trackId]}
  else selected ∪ {[trackId]}.

(** The descriptors [handleAddToQueue] builds from the selected results. *)
Definition selectedTracks (results : list result) (selected : gset Z)
  : list track :=
  (fun r => Track (r_id r) (r_title r) (r_artist r) (r_album r))
    <$> filter (fun r => r_id r ∈ selected) results.

(** What [handleAddToQueue] leaves behind: the store, the text of the
    alert, and the selection. *)
Record added : Type := Added {
  a_store : store;
  a_alert : string;
  a_selected : gset Z
}.

Definition handleAddToQueue (Date_now : nat -> Z) (results : list result)
    (selected : gset Z) (s : store) : Clocked added :=
  let tracks := selectedTracks results selected in
  s' ← addToQueue Date_now tracks s ;
  mret {| a_store := s';
          a_alert := "Added " +:+ show_Z (Z.of_nat (length tracks))
                     +:+ " tracks to download queue!";
          a_selected := ∅ |}.

(** ** The queue panel *)

(** The [DownloadQueue] component while mounted: its [isRunning] state and
    the world its buttons act on. *)
Record panel : Type := Panel {
  isRunning : bool;
  p_world : world
}.

(** [totalInQueue] *)
Definition totalInQueue (p : panel) : nat :=
  length (queue (st (rt (p_world p))))
  + length (downloading (st (rt (p_world p)))).

Inductive click : Type :=
| ClickStart                 (* the start button: shown when not running,
                                disabled when totalInQueue is 0 *)
| ClickStop                  (* the stop button: shown when running *)
| Elsewhere (e : event).     (* another action, or the event loop *)

Definition handleStart (Date_now : nat -> Z) (p : panel) : panel :=
  Panel true (start Date_now (p_world p)).

Definition handleStop (p : panel) : panel :=
  Panel false (stop (p_world p)).

(** The manager is only started and stopped through the panel. *)
Definition panel_step (Date_now : nat -> Z) (c : click) (p : panel)
  : option panel :=
  match c with
  | ClickStart =>
      if isRunning p then None
      else if decide (totalInQueue p = 0%nat) then None
      else Some (handleStart Date_now p)
  | ClickStop => if isRunning p then Some (handleStop p) else None
  | Elsewhere Start => None
  | Elsewhere Stop => None
  | Elsewhere e => Panel (isRunning p) <$> step Date_now e (p_world p)
  end.

Fixpoint panel_run (Date_now : nat -> Z) (cs : list click) (p : panel)
  : option panel :=
  match cs with
  | [] => Some p
  | c :: cs' => p' ← panel_step Date_now c p; panel_run Date_now cs' p'
  end.

(** ** Vocabulary of the further properties *)

(** What the store keeps true of the items of each collection. *)
Definition queued_ok (t : item) : Prop :=
  item_status t = queued /\ progress t = 0%Z /\ error t = None /\
  filename t = None.
Definition downloading_ok (t : item) : Prop :=
  item_status t = downloading_ /\ is_Some (startedAt t) /\ error t = None /\
  filename t = None.
Definition completed_ok (t : item) : Prop :=
  item_status t = completed_ /\ progress t = 100%Z /\ is_Some (filename t) /\
  is_Some (completedAt t) /\ error t = None.
Definition failed_ok (t : item) : Prop :=
  item_status t = failed_ /\ is_Some (error t) /\ is_Some (failedAt t) /\
  filename t = None.

Definition lifecycle_ok (s : store) : Prop :=
  Forall queued_ok (queue s) /\ Forall downloading_ok (downloading s) /\
  Forall completed_ok (completed s) /\ Forall failed_ok (failed s).

(** Not processing, and nothing registered. *)
Definition halted (r : runtime) : Prop :=
  isProcessing r = false /\ activeDownloads r = ∅.

(** The world of two transfers in flight after [stop()], once the first
    coroutine has seen the abort and its final sleep is over. *)
Definition two_stopped : world :=
  default (stop two_in_flight)
    (run ticking [Resume 0 AbortError; Resume 0 Timer] (stop two_in_flight)).

(** Registered controllers, for a runtime and a list of coroutines. *)
Definition registered (r : runtime) (ts : list task) : Prop :=
  forall trackId c,
    activeDownloads r !! trackId = Some c ->
    controllers r !! c = Some false /\
    exists track ph,
      Transferring track c ph ∈ ts /\ active ph = true /\
      item_id track = trackId.

(** The active transfers of [ts] are in [ts']. *)
Definition keeps (ts ts' : list task) : Prop :=
  forall track c ph,
    Transferring track c ph ∈ ts -> active ph = true ->
    Transferring track c ph ∈ ts'.

(** A world with one transfer suspended in a read of a body whose length
    is unknown, seven bytes received. *)
Definition reading : world :=
  default (initial_world 3)
    (run ticking
       [AddToQueue [Track 7 "Who?" " AC/DC" None]; Start;
        Resume 0 (StreamData (Some "u"));
        Resume 0 (Response true 200 "OK" None); Resume 0 (Chunk 7)]
       (initial_world 3)).

(** Every character of the string passes the test. *)
Fixpoint all_chars (P : ascii -> bool) (s : string) : bool :=
  match s with
  | EmptyString => true
  | String c s' => P c && all_chars P s'
  end.

(** The first and the last character of a string. *)
Definition first_char (s : string) : option ascii :=
  match s with
  | EmptyString => None
  | String c _ => Some c
  end.

Fixpoint last_char (s : string) : option ascii :=
  match s with
  | EmptyString => None
  | String c EmptyString => Some c
  | String _ s' => last_char s'
  end.

(** Every registered controller is unaborted and belongs to a coroutine
    that is in the transfer of an item with the registered id. *)
Definition registered_in_flight (w : world) : Prop :=
  forall trackId c,
    activeDownloads (rt w) !! trackId = Some c ->
    controllers (rt w) !! c = Some false /\
    exists track ph,
      Transferring track c ph ∈ tasks w /\ active ph = true /\
      item_id track = trackId.

(** * Properties *)

(** Closed decidable facts are settled by evaluating their decision
    procedure. *)
Ltac compute_decide :=
  match goal with
  | |- ?P => apply (bool_decide_unpack P); vm_compute; exact I
  end.

(** The clock monad, unfolded. *)
Ltac unfold_clocked :=
  unfold mbind, mret, Clocked_bind, Clocked_mret, now in *.

(** From [x = (r', t')] to a goal about [x.1]. *)
Ltac use_fst :=
  match goal with
  | H : ?x = (?r', _) |- context [?r'] =>
      replace r' with (x.1) by (by rewrite H)
  end.

(** ** Finding and removing by id *)

Lemma find_id_None trackId l : find_id trackId l = None <-> trackId ∉ ids l.
Proof.
  unfold find_id, ids. induction l as [|x l IH]; simpl.
  - split; [intros _; apply not_elem_of_nil | done].
  - rewrite not_elem_of_cons. case_bool_decide as Hx.
    + split; [done | intros [Hne _]; congruence].
    + rewrite IH. split; [intros ?; split; [congruence | done] | tauto].
Qed.

Lemma find_id_Some trackId l t :
  find_id trackId l = Some t -> t ∈ l /\ item_id t = trackId.
Proof.
  unfold find_id. intros H. apply find_some in H as [Hin Hid].
  split; [by apply list_elem_of_In | by apply bool_decide_eq_true in Hid].
Qed.

(** [find] returns the first item with the id. *)
Lemma find_id_first trackId l1 t l2 :
  trackId ∉ ids l1 -> item_id t = trackId ->
  find_id trackId (l1 ++ t :: l2) = Some t.
Proof.
  unfold find_id, ids. induction l1 as [|x l1 IH]; simpl; intros Hl1 Ht.
  - by rewrite bool_decide_eq_true_2.
  - apply not_elem_of_cons in Hl1 as [Hx Hl1].
    rewrite bool_decide_eq_false_2; [by apply IH | congruence].
Qed.

Lemma without_id_absent trackId l : trackId ∉ ids l -> without_id trackId l = l.
Proof.
  unfold without_id, ids. induction l as [|x l IH]; simpl; intros H; [done|].
  apply not_elem_of_cons in H as [Hx Hl].
  rewrite filter_cons_True; [by rewrite IH | congruence].
Qed.

Lemma without_id_one trackId l1 t l2 :
  item_id t = trackId -> trackId ∉ ids (l1 ++ l2) ->
  without_id trackId (l1 ++ t :: l2) = l1 ++ l2.
Proof.
  intros Ht Hl. unfold ids in Hl. rewrite fmap_app, not_elem_of_app in Hl.
  destruct Hl as [Hl1 Hl2]. unfold without_id.
  rewrite filter_app, filter_cons_False by (intros ?; congruence).
  fold (without_id trackId l1). fold (without_id trackId l2).
  by rewrite !without_id_absent.
Qed.


Lemma without_id_length trackId l :
  (length (without_id trackId l) <= length l)%nat.
Proof. apply length_filter. Qed.

Lemma store_eta s :
  Store (queue s) (downloading s) (completed s) (failed s) (quality s)
        (maxConcurrent s) = s.
Proof. by destruct s. Qed.

Lemma without_id_nodup trackId l :
  NoDup (ids l) -> (length l <= length (without_id trackId l) + 1)%nat.
Proof.
  unfold ids. induction l as [|x l IH]; simpl; intros Hnd; [lia|].
  apply NoDup_cons in Hnd as [Hx Hnd]. unfold without_id in *.
  destruct (decide (item_id x = trackId)) as [<-|Hne].
  - rewrite filter_cons_False by (intros ?; congruence).
    fold (without_id (item_id x) l). rewrite without_id_absent by done. lia.
  - rewrite filter_cons_True by done. simpl. specialize (IH Hnd). lia.
Qed.

Lemma progress_absent trackId p l :
  trackId ∉ ids l ->
  (fun t => if decide (item_id t = trackId) then with_progress p t else t)
    <$> l = l.
Proof.
  unfold ids. induction l as [|x l IH]; intros H; [done|].
  apply not_elem_of_cons in H as [Hx Hl]. rewrite fmap_cons.
  rewrite decide_False by congruence. f_equal. by apply IH.
Qed.

(** ** The store *)

(** C9: each of startDownload, updateProgress, completeDownload and
    failDownload returns the store it was given, and reads no clock, when
    no item of its source collection (queue for startDownload, downloading
    for the other three) has the given id. *)
Theorem movers_ignore_absent_id (Date_now : nat -> Z) (trackId : string)
    (s : store) (n : nat) :
  (trackId ∉ ids (queue s) -> startDownload Date_now trackId s n = (s, n)) /\
  (trackId ∉ ids (downloading s) ->
     (forall p, updateProgress trackId p s = s) /\
     (forall fname, completeDownload Date_now trackId fname s n = (s, n)) /\
     (forall err, failDownload Date_now trackId err s n = (s, n))).
Proof.
  split.
  - intros H. apply find_id_None in H. unfold startDownload. rewrite H. reflexivity.
  - intros H. split; [|split].
    + intros p. unfold updateProgress, set_downloading.
      rewrite progress_absent by done. apply store_eta.
    + intros fname. apply find_id_None in H. unfold completeDownload.
      rewrite H. reflexivity.
    + intros err. apply find_id_None in H. unfold failDownload. rewrite H. reflexivity.
Qed.

Lemma movers_ignore_absent_id_witness :
  let s := (addToQueue frozen [trackA] (initial_store 3) 0).1 in
  ("no-such-id" ∉ ids (queue s)) /\ ("no-such-id" ∉ ids (downloading s)) /\
  startDownload frozen "no-such-id" s 2 = (s, 2%nat) /\
  updateProgress "no-such-id" 40 s = s /\
  completeDownload frozen "no-such-id" "a.flac" s 2 = (s, 2%nat) /\
  failDownload frozen "no-such-id" "HTTP 404" s 2 = (s, 2%nat).
Proof.
  assert (Hq : "no-such-id" ∉
            ids (queue (addToQueue frozen [trackA] (initial_store 3) 0).1))
    by compute_decide.
  assert (Hd : "no-such-id" ∉
            ids (downloading (addToQueue frozen [trackA] (initial_store 3) 0).1))
    by compute_decide.
  pose proof (movers_ignore_absent_id frozen "no-such-id"
                (addToQueue frozen [trackA] (initial_store 3) 0).1 2) as [H1 H2].
  destruct (H2 Hd) as (Hp & Hc & Hf).
  exact (conj Hq (conj Hd (conj (H1 Hq) (conj (Hp _) (conj (Hc _) (Hf _)))))).
Defined.

Lemma without_id_count trackId l :
  length l =
    (length (without_id trackId l)
     + length (filter (fun t => item_id t = trackId) l))%nat.
Proof.
  unfold without_id. induction l as [|x l IH]; [done|].
  destruct (decide (item_id x = trackId)) as [Heq|Hne].
  - rewrite (filter_cons_False (fun t => item_id t ≠ trackId)) by tauto.
    rewrite (filter_cons_True (fun t => item_id t = trackId)) by done.
    cbn [length]. lia.
  - rewrite (filter_cons_True (fun t => item_id t ≠ trackId)) by done.
    rewrite (filter_cons_False (fun t => item_id t = trackId)) by done.
    cbn [length]. lia.
Qed.

(** C10, as amended: in every world and for every id, removeFromQueue
    leaves downloading, completed and failed as they were, and nothing of
    the manager changes: no controller is aborted and no transfer is
    resumed or dropped. It removes from the queue the items with the given
    id and no other, keeping the order of the rest: the queue gets shorter
    by the number of queued items with the id, which is at most one when
    the ids in the queue are distinct, and can be more when they are not.
    For an id that is not in the queue, such as the id of an item that is
    only in downloading, nothing changes at all. *)
Theorem removeFromQueue_frame (Date_now : nat -> Z) (trackId : string)
    (w : world) :
  exists w', step Date_now (RemoveFromQueue trackId) w = Some w' /\
    downloading (st (rt w')) = downloading (st (rt w)) /\
    completed (st (rt w')) = completed (st (rt w)) /\
    failed (st (rt w')) = failed (st (rt w)) /\
    tasks w' = tasks w /\
    activeDownloads (rt w') = activeDownloads (rt w) /\
    controllers (rt w') = controllers (rt w) /\
    isProcessing (rt w') = isProcessing (rt w) /\
    (forall x, x ∈ queue (st (rt w')) <->
               x ∈ queue (st (rt w)) /\ item_id x <> trackId) /\
    queue (st (rt w')) `sublist_of` queue (st (rt w)) /\
    length (queue (st (rt w))) =
      (length (queue (st (rt w')))
       + length (filter (fun t => item_id t = trackId)
                        (queue (st (rt w)))))%nat /\
    (NoDup (ids (queue (st (rt w)))) ->
     (length (queue (st (rt w))) <= length (queue (st (rt w'))) + 1)%nat) /\
    (trackId ∉ ids (queue (st (rt w))) -> w' = w).
Proof.
  eexists. split; [reflexivity|]. simpl.
  split_and!; try done.
  - intros x. unfold without_id. rewrite list_elem_of_filter. tauto.
  - apply sublist_filter.
  - apply without_id_count.
  - apply without_id_nodup.
  - intros Habs. destruct w as [[s n p m cs] ts]. simpl in *.
    unfold on_store, removeFromQueue, set_queue. simpl.
    rewrite without_id_absent by done. by rewrite store_eta.
Qed.

(** The id of an item that is in downloading: the call changes nothing. *)
Lemma removeFromQueue_frame_witness :
  let w := started ticking 2 five in
  "1-1700000000000" ∈ ids (downloading (st (rt w))) /\
  NoDup (ids (queue (st (rt w)))) /\
  step ticking (RemoveFromQueue "1-1700000000000") w = Some w /\
  (length (queue (st (rt w))) <=
   length (queue (removeFromQueue "1-1700000000000" (st (rt w)))) + 1)%nat.
Proof.
  assert (Hd : "1-1700000000000" ∈
                 ids (downloading (st (rt (started ticking 2 five)))))
    by compute_decide.
  assert (Hnd : NoDup (ids (queue (st (rt (started ticking 2 five))))))
    by compute_decide.
  assert (Hq : "1-1700000000000" ∉
                 ids (queue (st (rt (started ticking 2 five)))))
    by compute_decide.
  destruct (removeFromQueue_frame ticking "1-1700000000000"
              (started ticking 2 five))
    as (w' & Hstep & _ & _ & _ & _ & _ & _ & _ & _ & _ & _ & Hone & Hsame).
  refine (conj Hd (conj Hnd (conj _ _))).
  - rewrite Hstep. f_equal. exact (Hsame Hq).
  - injection Hstep as <-. exact (Hone Hnd).
Defined.

(** Two queued items of one id: both are removed, and the rest of the
    statement holds as it does in every world. *)
Example removeFromQueue_with_duplicate_ids :
  let w := World (Runtime twice_queued 4 false ∅ []) [] in
  exists w', step frozen (RemoveFromQueue "1-1700000000000") w = Some w' /\
    length (queue (st (rt w))) = 2%nat /\ queue (st (rt w')) = [] /\
    downloading (st (rt w')) = downloading (st (rt w)) /\
    completed (st (rt w')) = completed (st (rt w)) /\
    failed (st (rt w')) = failed (st (rt w)).
Proof. eexists. split; [reflexivity|]. by vm_compute. Qed.

(** C10, as stated, fails: when two queued items carry the same id, as
    after one addToQueue of a batch naming a track twice, removeFromQueue
    takes both out. *)
Lemma removeFromQueue_removes_every_match :
  ~ removes_at_most_one "1-1700000000000" twice_queued.
Proof. unfold removes_at_most_one. vm_compute. lia. Qed.

(** C5, as amended: when exactly one item of failed has the given id,
    retryFailed takes that item out of failed, leaving the others in their
    order, and appends it to the tail of the queue with status queued,
    progress 0 and no error; its catalog id, title, artist and id are the
    same, and downloading, completed and the settings are untouched. *)
Theorem retryFailed_moves_the_item (trackId : string) (s : store)
    (l1 : list item) (t : item) (l2 : list item) :
  failed s = l1 ++ t :: l2 ->
  item_id t = trackId ->
  trackId ∉ ids (l1 ++ l2) ->
  exists t',
    retryFailed trackId s =
      Store (queue s ++ [t']) (downloading s) (completed s) (l1 ++ l2)
            (quality s) (maxConcurrent s) /\
    item_status t' = queued /\ progress t' = 0%Z /\ error t' = None /\
    tidal_id t' = tidal_id t /\ title t' = title t /\ artist t' = artist t /\
    item_id t' = item_id t.
Proof.
  intros Hf Ht Hothers. exists (requeued t). split; [|done].
  unfold retryFailed. rewrite Hf.
  assert (Hl1 : trackId ∉ ids l1).
  { unfold ids in *. rewrite fmap_app, not_elem_of_app in Hothers. tauto. }
  rewrite find_id_first by done. by rewrite without_id_one.
Qed.

Lemma retryFailed_moves_the_item_witness :
  let s := after [addToQueue ticking [trackA];
                  startDownload ticking "1-1700000000000";
                  failDownload ticking "1-1700000000000" "HTTP 404"] in
  exists t t',
    failed s = [] ++ t :: [] /\ item_id t = "1-1700000000000" /\
    ("1-1700000000000" ∉ ids ([] ++ [])) /\
    error t = Some "HTTP 404" /\
    retryFailed "1-1700000000000" s =
      Store [t'] [] [] [] "LOSSLESS" 3 /\ error t' = None.
Proof.
  eexists. 
  destruct (retryFailed_moves_the_item "1-1700000000000"
              (after [addToQueue ticking [trackA];
                      startDownload ticking "1-1700000000000";
                      failDownload ticking "1-1700000000000" "HTTP 404"])
              [] _ [] eq_refl eq_refl (not_elem_of_nil _))
    as (t' & Hr & _ & _ & He & _).
  exists t'. split_and!; [reflexivity | reflexivity | apply not_elem_of_nil
                         | reflexivity | exact Hr | exact He].
Defined.

(** C5, as stated, fails: when two failed items carry the given id,
    retryFailed takes both out of failed and queues only the first. *)
Lemma retryFailed_drops_same_id :
  ~ retry_moves_one "1-1700000000000" twice_failed.
Proof.
  intros (l1 & t & l2 & t' & Hf & _ & Hf' & _).
  assert (Hlen : length (failed twice_failed) = 2%nat) by (vm_compute; done).
  assert (Hnil : failed (retryFailed "1-1700000000000" twice_failed) = [])
    by (vm_compute; done).
  rewrite Hnil in Hf'. symmetry in Hf'. apply app_eq_nil in Hf' as [-> ->].
  rewrite Hf in Hlen. simpl in Hlen. lia.
Qed.

(** *** Enqueueing *)

Lemma new_items_cons (Date_now : nat -> Z) t ts n :
  new_items Date_now (t :: ts) n =
    ((new_item Date_now t n).1 :: (new_items Date_now ts (S (S n))).1,
     (new_items Date_now ts (S (S n))).2).
Proof.
  cbn [new_items]. unfold new_item. unfold_clocked.
  by destruct (new_items Date_now ts (S (S n))).
Qed.

Lemma new_items_catalog_ids (Date_now : nat -> Z) ts n :
  tidal_id <$> (new_items Date_now ts n).1 = t_tidal_id <$> ts.
Proof.
  revert n. induction ts as [|t ts IH]; intros n; [done|].
  rewrite new_items_cons. specialize (IH (S (S n))).
  destruct (new_items Date_now ts (S (S n))) as [is' n'] eqn:E. cbn in *.
  by rewrite IH.
Qed.

Lemma new_items_length (Date_now : nat -> Z) ts n :
  length (new_items Date_now ts n).1 = length ts.
Proof.
  rewrite <- (length_fmap tidal_id), new_items_catalog_ids.
  apply length_fmap.
Qed.

(** What addToQueue does by design: a descriptor whose catalog id is in
    queue, downloading or completed is skipped, the others are appended to
    the queue in the order of the batch, and the two logged counts add up
    to the size of the batch. *)
Lemma addToQueue_skips_existing (Date_now : nat -> Z) tracks s n :
  let s' := (addToQueue Date_now tracks s n).1 in
  tidal_id <$> queue s' =
    (tidal_id <$> queue s)
      ++ filter (fun c => c ∉ catalog_ids s) (t_tidal_id <$> tracks) /\
  downloading s' = downloading s /\ completed s' = completed s /\
  failed s' = failed s /\
  (addedCount tracks s + duplicateCount tracks s = length tracks)%nat.
Proof.
  assert (Hsurv : t_tidal_id <$> survivors tracks s =
                  filter (fun c => c ∉ catalog_ids s) (t_tidal_id <$> tracks)).
  { unfold survivors, existingIds. fold (catalog_ids s).
    induction tracks as [|t ts IH]; [done|].
    rewrite fmap_cons, !filter_cons.
    destruct (decide (t_tidal_id t ∉ list_to_set (catalog_ids s)))
      as [Hin|Hin]; rewrite elem_of_list_to_set in Hin.
    - rewrite decide_True by done. by rewrite fmap_cons, IH.
    - rewrite decide_False by done. done. }
  pose proof (new_items_catalog_ids Date_now (survivors tracks s) n) as Hids.
  pose proof (new_items_length Date_now (survivors tracks s) n) as Hlen.
  unfold addToQueue, addedCount, duplicateCount. unfold_clocked.
  destruct (new_items Date_now (survivors tracks s) n) as [is' n'].
  cbn in Hids, Hlen.
  assert (Hle : (length (survivors tracks s) <= length tracks)%nat)
    by apply length_filter.
  case_decide as Hz; cbn.
  - split_and!; try done; [|lia].
    rewrite <- Hsurv, <- Hids. destruct is'; [|done].
    by rewrite app_nil_r.
  - split_and!; try done; [|lia].
    by rewrite fmap_app, Hids, Hsurv.
Qed.

(** By design no catalog id is queued that queue, downloading or completed
    already hold: a batch without repeated catalog ids keeps the catalog ids
    of the three collections distinct. *)
Lemma addToQueue_no_new_duplicates (Date_now : nat -> Z) tracks s n :
  NoDup (catalog_ids s) ->
  NoDup (t_tidal_id <$> tracks) ->
  NoDup (catalog_ids (addToQueue Date_now tracks s n).1).
Proof.
  intros Hs Hb.
  destruct (addToQueue_skips_existing Date_now tracks s n)
    as (Hq & Hd & Hc & _).
  unfold catalog_ids in *. rewrite Hq, Hd, Hc.
  set (f := filter (fun c => c ∉ _) _).
  set (q := tidal_id <$> queue s) in *.
  set (dc := (tidal_id <$> downloading s) ++ (tidal_id <$> completed s)) in *.
  assert (Hp : (q ++ f) ++ dc ≡ₚ f ++ q ++ dc).
  { by rewrite (comm (++) q f), <- (assoc (++)). }
  rewrite Hp. apply NoDup_app. split_and!; [by apply NoDup_filter | | done].
  intros c Hin. by apply list_elem_of_filter in Hin as [? _].
Qed.

Lemma survivors_same_catalog_id a b s :
  t_tidal_id a = t_tidal_id b ->
  t_tidal_id a ∉ catalog_ids s ->
  survivors [a; b] s = [a; b].
Proof.
  intros Hab Ha. unfold survivors, existingIds. fold (catalog_ids s).
  assert (Ha' : t_tidal_id a ∉ (list_to_set (catalog_ids s) : gset Z))
    by by rewrite elem_of_list_to_set.
  rewrite filter_cons_True by done.
  rewrite filter_cons_True by (by rewrite <- Hab).
  done.
Qed.

(** C1, on the code: when a batch names twice a catalog id that is not in
    queue, downloading or completed, addToQueue queues both descriptors, in
    the order of the batch: 2 tracks are added and 0 counted as duplicates.
    For the batch A, B of catalog id 1 on the initial store the queue then
    holds A and B, where the specification has 1 added, 1 duplicate, and A
    alone in the queue. *)
Theorem addToQueue_keeps_batch_duplicates (Date_now : nat -> Z) (n : nat)
    (s : store) (a b : track) :
  t_tidal_id a = t_tidal_id b ->
  t_tidal_id a ∉ catalog_ids s ->
  addedCount [a; b] s = 2%nat /\
  duplicateCount [a; b] s = 0%nat /\
  exists x y,
    queue (addToQueue Date_now [a; b] s n).1 = queue s ++ [x; y] /\
    tidal_id x = t_tidal_id a /\ tidal_id y = t_tidal_id a /\
    title x = t_title a /\ title y = t_title b.
Proof.
  intros Hab Ha. unfold addedCount, duplicateCount, addToQueue.
  rewrite (survivors_same_catalog_id a b s Hab Ha).
  split; [done|]. split; [done|].
  unfold new_items, new_item. unfold_clocked. cbn.
  do 2 eexists. split; [reflexivity|]. cbn. by rewrite Hab.
Qed.

Lemma addToQueue_keeps_batch_duplicates_witness :
  t_tidal_id trackA = t_tidal_id trackB /\
  (t_tidal_id trackA ∉ catalog_ids (initial_store 3)) /\
  addedCount [trackA; trackB] (initial_store 3) = 2%nat /\
  duplicateCount [trackA; trackB] (initial_store 3) = 0%nat /\
  title <$> queue twice_queued = ["A"; "B"] /\
  tidal_id <$> queue twice_queued = [1%Z; 1%Z].
Proof.
  assert (Hfresh : t_tidal_id trackA ∉ catalog_ids (initial_store 3))
    by apply not_elem_of_nil.
  destruct (addToQueue_keeps_batch_duplicates frozen 0 (initial_store 3)
              trackA trackB eq_refl Hfresh) as (Hadd & Hdup & _).
  exact (conj eq_refl (conj Hfresh (conj Hadd (conj Hdup
           (conj eq_refl eq_refl))))).
Defined.

(** C2, on the code: two descriptors of one catalog track in one batch get
    the same id whenever the two clock readings that go into their ids, two
    readings apart, fall in the same millisecond. *)
Theorem same_millisecond_same_id (Date_now : nat -> Z) (n : nat) (s : store)
    (a b : track) :
  t_tidal_id a = t_tidal_id b ->
  t_tidal_id a ∉ catalog_ids s ->
  Date_now (S (S n)) = Date_now n ->
  exists x y,
    queue (addToQueue Date_now [a; b] s n).1 = queue s ++ [x; y] /\
    item_id x = item_id y.
Proof.
  intros Hab Ha Hclock. unfold addToQueue.
  rewrite (survivors_same_catalog_id a b s Hab Ha).
  unfold new_items, new_item. unfold_clocked. cbn.
  do 2 eexists. split; [reflexivity|]. cbn. by rewrite Hab, Hclock.
Qed.

Lemma same_millisecond_same_id_witness :
  t_tidal_id trackA = t_tidal_id trackB /\
  (t_tidal_id trackA ∉ catalog_ids (initial_store 3)) /\
  frozen 2 = frozen 0 /\
  ids (queue twice_queued) = ["1-1700000000000"; "1-1700000000000"] /\
  exists x y, queue twice_queued = [] ++ [x; y] /\ item_id x = item_id y.
Proof.
  assert (Hfresh : t_tidal_id trackA ∉ catalog_ids (initial_store 3))
    by apply not_elem_of_nil.
  exact (conj eq_refl (conj Hfresh (conj eq_refl (conj eq_refl
           (same_millisecond_same_id frozen 0 (initial_store 3) trackA trackB
              eq_refl Hfresh eq_refl))))).
Defined.

(** *** What each action does to downloading and to the settings *)

Lemma startDownload_downloading (Date_now : nat -> Z) trackId s n :
  let s' := (startDownload Date_now trackId s n).1 in
  maxConcurrent s' = maxConcurrent s /\
  (downloading s' = downloading s \/
   exists x, downloading s' = downloading s ++ [x] /\ item_id x = trackId).
Proof.
  unfold startDownload. destruct (find_id trackId (queue s)) as [t|] eqn:E.
  - apply find_id_Some in E as [_ Hid]. unfold_clocked. cbn.
    split; [done|]. right. eexists. split; [reflexivity|]. done.
  - cbn. auto.
Qed.

Lemma failDownload_downloading (Date_now : nat -> Z) trackId err s n :
  let s' := (failDownload Date_now trackId err s n).1 in
  maxConcurrent s' = maxConcurrent s /\
  downloading s' = without_id trackId (downloading s).
Proof.
  unfold failDownload.
  destruct (find_id trackId (downloading s)) as [t|] eqn:E; cbn; [done|].
  apply find_id_None in E. by rewrite without_id_absent.
Qed.

Lemma completeDownload_downloading (Date_now : nat -> Z) trackId fname s n :
  let s' := (completeDownload Date_now trackId fname s n).1 in
  maxConcurrent s' = maxConcurrent s /\
  downloading s' = without_id trackId (downloading s).
Proof.
  unfold completeDownload.
  destruct (find_id trackId (downloading s)) as [t|] eqn:E; cbn; [done|].
  apply find_id_None in E. by rewrite without_id_absent.
Qed.

Lemma updateProgress_ids trackId p s :
  ids (downloading (updateProgress trackId p s)) = ids (downloading s).
Proof.
  unfold updateProgress, ids. cbn. rewrite <- list_fmap_compose.
  apply list_fmap_ext. intros _ x _. cbn. by case_decide.
Qed.

Lemma updateProgress_length trackId p s :
  length (downloading (updateProgress trackId p s)) = length (downloading s).
Proof. unfold updateProgress. cbn. apply length_fmap. Qed.

Lemma addToQueue_downloading (Date_now : nat -> Z) tracks s n :
  let s' := (addToQueue Date_now tracks s n).1 in
  maxConcurrent s' = maxConcurrent s /\ downloading s' = downloading s.
Proof.
  unfold addToQueue. unfold_clocked.
  destruct (new_items Date_now (survivors tracks s) n) as [is' n'].
  by case_decide.
Qed.

(** ** The download manager *)

(** C7: a second stop() changes nothing that the first left, and start()
    on a manager that is already processing returns the world as it is:
    no flag, map, controller, store field or coroutine changes. *)
Theorem stop_idempotent_start_noop (Date_now : nat -> Z) (w : world) :
  stop (stop w) = stop w /\
  (isProcessing (rt w) = true -> start Date_now w = w).
Proof.
  split.
  - unfold stop. cbn. by rewrite map_to_list_empty.
  - intros H. unfold start. by rewrite H.
Qed.

Lemma stop_idempotent_start_noop_witness :
  let w := start ticking (initial_world 3) in
  isProcessing (rt w) = true /\ stop (stop w) = stop w /\ start ticking w = w.
Proof.
  pose proof (stop_idempotent_start_noop ticking
                (start ticking (initial_world 3))) as [Hstop Hstart].
  exact (conj eq_refl (conj Hstop (Hstart eq_refl))).
Defined.

(** *** Invariants of the reachable worlds *)

Section Invariants.

Variable Date_now : nat -> Z.
Variable mc : Z.

Lemma sound_fail track err r :
  sound mc r ->
  sound mc (run_store (failDownload Date_now (item_id track) err) r).
Proof.
  intros [[Hmc Hlen] Hal]. unfold run_store.
  pose proof (failDownload_downloading Date_now (item_id track) err
                (st r) (reads r)) as [Hmc' Hd].
  destruct (failDownload _ _ _ _ _) as [s' n']. cbn in *.
  split; [split|done]; cbn; [congruence|]. rewrite Hd.
  pose proof (without_id_length (item_id track) (downloading (st r))). lia.
Qed.

Lemma sound_complete track fname r :
  sound mc r ->
  sound mc (run_store (completeDownload Date_now (item_id track) fname) r).
Proof.
  intros [[Hmc Hlen] Hal]. unfold run_store.
  pose proof (completeDownload_downloading Date_now (item_id track) fname
                (st r) (reads r)) as [Hmc' Hd].
  destruct (completeDownload _ _ _ _ _) as [s' n']. cbn in *.
  split; [split|done]; cbn; [congruence|]. rewrite Hd.
  pose proof (without_id_length (item_id track) (downloading (st r))). lia.
Qed.

Lemma sound_release track ctrl r : sound mc r -> sound mc (release track ctrl r).1.
Proof.
  intros [Hcap Hal]. split; [done|]. intros i c. cbn.
  rewrite lookup_delete_Some. intros [_ H]. by apply Hal in H.
Qed.

Lemma sound_downloadTrack track r :
  sound mc r ->
  (Z.of_nat (length (downloading (st r))) < maxConcurrent (st r))%Z ->
  sound mc (downloadTrack Date_now track r).1.
Proof.
  intros [[Hmc Hlen] Hal] Hfree.
  unfold downloadTrack, downloadTrackClientSide, run_store.
  pose proof (startDownload_downloading Date_now (item_id track)
                (st r) (reads r)) as [Hmc' Hd].
  destruct (startDownload _ _ _ _) as [s' n']. cbn in *.
  split; [split|]; cbn.
  - congruence.
  - destruct Hd as [-> | (x & -> & _)]; [lia|].
    rewrite length_app. cbn. lia.
  - intros i c. cbn. rewrite length_app. cbn.
    destruct (decide (item_id track = i)) as [->|Hne].
    + rewrite lookup_insert_eq. intros [= <-]. lia.
    + rewrite lookup_insert_ne by done. intros H. apply Hal in H. lia.
Qed.

Lemma sound_loop r : sound mc r -> sound mc (loop Date_now r).1.
Proof.
  intros H. unfold loop. destruct (isProcessing r); [|done].
  case_bool_decide as Hfree.
  - destruct (queue (st r) !! 0%nat) as [track|]; [|done].
    pose proof (sound_downloadTrack track r H (proj1 Hfree)).
    by destruct (downloadTrack Date_now track r).
  - by case_bool_decide.
Qed.

Lemma sound_resume t resp r r' t' :
  sound mc r -> resume_task Date_now t resp r = Some (r', t') -> sound mc r'.
Proof.
  intros H Hres.
  assert (Hloop : sound mc (loop Date_now r).1) by by apply sound_loop.
  assert (Hcaught : forall track ctrl err,
             sound mc (caught Date_now track ctrl err r).1).
  { intros. apply sound_release. by apply sound_fail. }
  assert (Hcancel : forall track ctrl,
             sound mc (cancelled Date_now track ctrl r).1).
  { intros. apply sound_release. by apply sound_fail. }
  destruct t as [ms|track ctrl ph]; cbn in Hres.
  - destruct resp; simplify_eq; by use_fst.
  - destruct ph, resp; cbn in Hres; simplify_eq;
      repeat (case_match; simplify_eq); try done; try (by use_fst).
    + (* a chunk with a known total: updateProgress *)
      destruct H as [[Hmc Hlen] Hal]. split; [split|done]; cbn.
      * done.
      * by rewrite length_fmap.
    + use_fst. apply sound_release. by apply sound_complete.
Qed.

Lemma sound_step e w w' :
  sound mc (rt w) -> step Date_now e w = Some w' -> sound mc (rt w').
Proof.
  intros H Hstep. destruct e; cbn [step] in Hstep; simplify_eq.
  - (* start *)
    unfold start. destruct (isProcessing (rt w)) eqn:E; [done|].
    assert (Hs : sound mc (with_isProcessing true (rt w))) by done.
    apply sound_loop in Hs.
    by destruct (loop Date_now (with_isProcessing true (rt w))).
  - (* stop *)
    destruct H as [Hcap _]. split; [done|]. intros i c Hl.
    unfold stop in Hl. cbn [activeDownloads rt] in Hl.
    by rewrite lookup_empty in Hl.
  - (* addToQueue *)
    destruct H as [[Hmc Hlen] Hal]. unfold run_store. cbn.
    pose proof (addToQueue_downloading Date_now tracks (st (rt w))
                  (reads (rt w))) as [Hmc' Hd].
    destruct (addToQueue _ _ _ _) as [s' n']. cbn in *.
    split; [split|done]; cbn; congruence.
  - done.
  - destruct H as [[Hmc Hlen] Hal]. split; [split|done]; cbn;
      unfold retryFailed; by case_match.
  - done.
  - done.
  - done.
  - destruct (tasks w !! i) as [t|]; cbn in Hstep; [|done].
    destruct (resume_task Date_now t r (rt w)) as [[r' t']|] eqn:E;
      cbn in Hstep; simplify_eq.
    cbn. by eapply sound_resume.
Qed.

Lemma reachable_sound w :
  (0 <= mc)%Z -> reachable Date_now mc w -> sound mc (rt w).
Proof.
  intros Hmc. induction 1 as [|w e w' _ IH Hstep].
  - split; [split; cbn; [done | lia] |].
    intros i c Hl. unfold initial_world in Hl.
    cbn [activeDownloads rt] in Hl. by rewrite lookup_empty in Hl.
  - by eapply sound_step.
Qed.

Lemma run_reachable es w w' :
  reachable Date_now mc w -> run Date_now es w = Some w' ->
  reachable Date_now mc w'.
Proof.
  revert w. induction es as [|e es IH]; intros w Hw Hrun; cbn in Hrun.
  - by simplify_eq.
  - destruct (step Date_now e w) as [w1|] eqn:E; cbn in Hrun; [|done].
    eapply IH; [|done]. by eapply reach_step.
Qed.

End Invariants.

(** C6: in every world reachable from the initial one by addToQueue,
    start() and stop() (and by the other actions of the presentation layer
    and the resumptions of the event loop), downloading holds at most
    maxConcurrent items. *)
Theorem downloading_never_exceeds_maxConcurrent (Date_now : nat -> Z)
    (mc : Z) (w : world) :
  (0 <= mc)%Z ->
  reachable Date_now mc w ->
  (Z.of_nat (length (downloading (st (rt w)))) <= maxConcurrent (st (rt w)))%Z.
Proof.
  intros Hmc Hw. destruct (reachable_sound Date_now mc w Hmc Hw) as [[-> ?] _].
  done.
Qed.

Lemma two_in_flight_run :
  run ticking two_in_flight_trace (initial_world 2) = Some two_in_flight.
Proof. vm_compute. reflexivity. Qed.

Lemma downloading_never_exceeds_maxConcurrent_witness :
  (0 <= 2)%Z /\ reachable ticking 2 two_in_flight /\
  length (downloading (st (rt two_in_flight))) = 2%nat /\
  (Z.of_nat (length (downloading (st (rt two_in_flight))))
   <= maxConcurrent (st (rt two_in_flight)))%Z.
Proof.
  assert (H0 : (0 <= 2)%Z) by lia.
  assert (Hr : reachable ticking 2 two_in_flight).
  { eapply run_reachable; [apply reach_init | apply two_in_flight_run]. }
  exact (conj H0 (conj Hr (conj eq_refl
           (downloading_never_exceeds_maxConcurrent ticking 2 two_in_flight
              H0 Hr)))).
Defined.

(** *** One call of start() runs one transfer at a time *)

Lemma without_id_all trackId l :
  (forall x, x ∈ l -> item_id x = trackId) -> without_id trackId l = [].
Proof.
  unfold without_id. induction l as [|x l IH]; intros H; [done|].
  rewrite filter_cons_False; [|intros Hne; apply Hne, H; left].
  apply IH. intros y Hy. apply H. by right.
Qed.

Lemma owns_nil t : owns [] t.
Proof. split; [cbn; lia|]. intros x Hx. by apply not_elem_of_nil in Hx. Qed.

Lemma owns_inactive d t :
  owns d (Some t) ->
  (forall track ctrl ph, t = Transferring track ctrl ph -> active ph = false) ->
  d = [].
Proof.
  intros [_ H] Hin. destruct d as [|x d]; [done|].
  destruct (H x) as (track & ctrl & ph & [= ->] & Hact & _); [left|].
  rewrite (Hin track ctrl ph eq_refl) in Hact. done.
Qed.

Section Serial.

Variable Date_now : nat -> Z.

Lemma loop_owns r :
  downloading (st r) = [] ->
  owns (downloading (st (loop Date_now r).1)) (loop Date_now r).2.
Proof.
  intros Hd. unfold loop. destruct (isProcessing r); cbn;
    [|rewrite Hd; apply owns_nil].
  case_bool_decide as Hfree.
  - destruct (queue (st r) !! 0%nat) as [track|]; cbn;
      [|rewrite Hd; apply owns_nil].
    unfold downloadTrack, downloadTrackClientSide, run_store.
    pose proof (startDownload_downloading Date_now (item_id track)
                  (st r) (reads r)) as [_ Hs].
    destruct (startDownload _ _ _ _) as [s' n']. cbn in *.
    rewrite Hd in Hs. destruct Hs as [-> | (x & -> & Hx)];
      [apply owns_nil|].
    split; [cbn; lia|]. intros y Hy. cbn in Hy.
    apply list_elem_of_singleton in Hy as ->.
    by exists track, (length (controllers r)), AwaitStreamUrl.
  - case_bool_decide; cbn; rewrite Hd; apply owns_nil.
Qed.

Lemma finish_owns track ctrl ph d t' :
  owns d (Some (Transferring track ctrl ph)) ->
  owns (without_id (item_id track) d) t'.
Proof.
  intros [_ H]. rewrite without_id_all; [apply owns_nil|].
  intros x Hx. destruct (H x Hx) as (? & ? & ? & [= <- <- <-] & _ & Hid).
  done.
Qed.

Lemma resume_owns t resp r r' t' :
  owns (downloading (st r)) (Some t) ->
  resume_task Date_now t resp r = Some (r', t') ->
  owns (downloading (st r')) t'.
Proof.
  intros Hown Hres.
  assert (Hfail : forall track ctrl ph err,
             t = Transferring track ctrl ph ->
             owns (downloading
                     (st (run_store
                            (failDownload Date_now (item_id track) err) r)))
                  (Some (Transferring track ctrl AwaitRateLimit))).
  { intros track ctrl ph err ->. unfold run_store.
    pose proof (failDownload_downloading Date_now (item_id track) err
                  (st r) (reads r)) as [_ Hd].
    destruct (failDownload _ _ _ _ _) as [s' n']. cbn in *. rewrite Hd.
    by eapply finish_owns. }
  destruct t as [ms|track ctrl ph]; cbn in Hres.
  - destruct resp; simplify_eq.
    apply owns_inactive in Hown; [|done].
    pose proof (loop_owns r Hown) as Hl. by rewrite Hres in Hl.
  - destruct ph, resp; cbn in Hres; simplify_eq;
      repeat (case_match; simplify_eq);
      unfold caught, cancelled, release in *; simplify_eq; cbn;
      try (by eapply Hfail);
      try (destruct Hown as [Hlen Hown]; split; [done|];
           intros x Hx; destruct (Hown x Hx)
             as (? & ? & ? & [= <- <- <-] & _ & Hid);
           by do 3 eexists).
    + (* a chunk with a known total: updateProgress keeps the ids *)
      destruct Hown as [Hlen Hown]. split.
      * by rewrite length_fmap.
      * intros x Hx.
        apply list_elem_of_fmap in Hx as (y & -> & Hy).
        destruct (Hown y Hy) as (? & ? & ? & [= <- <- <-] & _ & Hid).
        do 3 eexists. split_and!; [reflexivity | reflexivity |].
        by destruct (decide (item_id y = item_id track)).
    + (* the body was read to its end: completeDownload *)
      unfold run_store.
      pose proof (completeDownload_downloading Date_now (item_id track)
                    (sanitizeFilename (flac_name (artist track) (title track)))
                    (st r) (reads r)) as [_ Hd].
      destruct (completeDownload _ _ _ _ _) as [s' n']. cbn in *.
      rewrite Hd. by eapply finish_owns.
    + (* the final sleep is over: back to the loop *)
      apply owns_inactive in Hown; [|by intros ? ? ? [= <- <- <-]].
      pose proof (loop_owns r Hown) as Hl. by rewrite Hres in Hl.
Qed.

Lemma serial_start w :
  tasks w = [] -> downloading (st (rt w)) = [] -> serial (start Date_now w).
Proof.
  intros Hts Hd. unfold start. destruct (isProcessing (rt w)).
  - exists None. split; [done|]. rewrite Hd. apply owns_nil.
  - pose proof (loop_owns (with_isProcessing true (rt w)) Hd) as Hl.
    destruct (loop _ _) as [r' t]. exists t. by rewrite Hts.
Qed.

Lemma serial_started mc tracks : serial (started Date_now mc tracks).
Proof.
  apply serial_start; [done|]. cbn [rt]. unfold run_store.
  pose proof (addToQueue_downloading Date_now tracks
                (st (rt (initial_world mc))) (reads (rt (initial_world mc))))
    as [_ Hd].
  by destruct (addToQueue _ _ _ _).
Qed.

Lemma serial_resume w i resp w' :
  serial w -> step Date_now (Resume i resp) w = Some w' -> serial w'.
Proof.
  intros (t & Hts & Hown) Hstep. cbn [step] in Hstep. rewrite Hts in Hstep.
  destruct t as [t|]; [|by destruct i].
  destruct i as [|i]; [|by destruct i]. cbn in Hstep.
  destruct (resume_task Date_now t resp (rt w)) as [[r' t']|] eqn:E;
    cbn in Hstep; simplify_eq.
  exists t'. split; [by destruct t'|]. cbn. by eapply resume_owns.
Qed.

Lemma settles_serial w w' : serial w -> settles Date_now w w' -> serial w'.
Proof.
  intros Hw. induction 1 as [|w1 i resp w2 _ IH Hstep]; [done|].
  by eapply serial_resume.
Qed.

End Serial.

(** C3, on the code: start() awaits the transfer it launches, so however
    the event loop resumes the coroutines after tracks were enqueued and
    start() was called once, downloading never holds more than one item,
    whatever maxConcurrent is. The specification expects two items in
    downloading with maxConcurrent 2 and five tracks enqueued. *)
Theorem start_awaits_each_transfer (Date_now : nat -> Z) (mc : Z)
    (tracks : list track) (w : world) :
  settles Date_now (started Date_now mc tracks) w ->
  (length (downloading (st (rt w))) <= 1)%nat.
Proof.
  intros H. apply settles_serial in H; [|apply serial_started].
  by destruct H as (t & _ & Hlen & _).
Qed.

Lemma start_awaits_each_transfer_witness :
  settles ticking (started ticking 2 five) (started ticking 2 five) /\
  maxConcurrent (st (rt (started ticking 2 five))) = 2%Z /\
  length (queue (st (rt (started ticking 2 five)))) = 4%nat /\
  length (downloading (st (rt (started ticking 2 five)))) = 1%nat /\
  (length (downloading (st (rt (started ticking 2 five)))) <= 1)%nat.
Proof.
  pose proof (settles_here ticking (started ticking 2 five)) as Hs.
  exact (conj Hs (conj eq_refl (conj eq_refl (conj eq_refl
           (start_awaits_each_transfer ticking 2 five _ Hs))))).
Defined.

(** The same scenario further on: the first transfer is read to its end
    and its final sleep is over before the second item leaves the queue,
    and again only one item is in downloading. *)
Example five_tracks_one_at_a_time :
  exists w,
    run ticking
      [Resume 0 (StreamData (Some "u")); Resume 0 (Response true 200 "OK" (Some 10%Z));
       Resume 0 (Chunk 10); Resume 0 Done; Resume 0 Timer]
      (started ticking 2 five) = Some w /\
    length (queue (st (rt w))) = 3%nat /\
    length (downloading (st (rt w))) = 1%nat /\
    length (completed (st (rt w))) = 1%nat /\
    filename <$> completed (st (rt w)) = [Some "X - T.flac"] /\
    progress <$> completed (st (rt w)) = [100%Z].
Proof. eexists. split; [vm_compute; reflexivity|]. by vm_compute. Qed.

(** The progress stored is the rounded product of the rounded quotient:
    after 23 bytes of 40 it is 57, since 0.575 is not a binary64 value and
    its product with 100 is rounded to a value below 57.5. *)
Example progress_after_23_of_40 :
  exists w,
    run ticking
      [Resume 0 (StreamData (Some "u"));
       Resume 0 (Response true 200 "OK" (Some 40%Z)); Resume 0 (Chunk 23)]
      (started ticking 2 five) = Some w /\
    progress <$> downloading (st (rt w)) = [57%Z].
Proof. eexists. split; [vm_compute; reflexivity|]. by vm_compute. Qed.

(** *** Registration *)

Lemma startDownload_head (Date_now : nat -> Z) t q s n :
  queue s = t :: q ->
  exists t',
    startDownload Date_now (item_id t) s n =
      (Store (without_id (item_id t) q) (downloading s ++ [t']) (completed s)
             (failed s) (quality s) (maxConcurrent s), S n) /\
    item_id t' = item_id t /\ tidal_id t' = tidal_id t /\ title t' = title t /\
    item_status t' = downloading_ /\ startedAt t' = Some (Date_now n).
Proof.
  intros Hq. unfold startDownload. rewrite Hq.
  change (t :: q) with ([] ++ t :: q) at 1.
  rewrite (find_id_first (item_id t) [] t q) by (done || apply not_elem_of_nil).
  unfold without_id. rewrite filter_cons_False by (by intros ?).
  unfold_clocked. cbn. eexists. split; [reflexivity|]. done.
Qed.

Lemma list_elem_of_insert_other {A} (l : list A) i (x t y : A) :
  x ∈ l -> l !! i = Some t -> x <> t -> x ∈ <[i := y]> l.
Proof.
  intros [j Hj]%list_elem_of_lookup_1 Hi Hne.
  apply (list_elem_of_lookup_2 _ j). rewrite list_lookup_insert_ne; [done|].
  intros ->. congruence.
Qed.

Lemma list_elem_of_delete_other {A} (l : list A) i (x t : A) :
  x ∈ l -> l !! i = Some t -> x <> t -> x ∈ delete i l.
Proof.
  intros [j Hj]%list_elem_of_lookup_1 Hi Hne.
  destruct (decide (j < i)%nat) as [Hlt|Hge].
  - apply (list_elem_of_lookup_2 _ j). by rewrite list_lookup_delete_lt.
  - assert (j <> i) by (intros ->; congruence).
    destruct j as [|j]; [lia|].
    apply (list_elem_of_lookup_2 _ j).
    rewrite list_lookup_delete_ge by lia. done.
Qed.

Lemma put_task_other i t t' ts x :
  x ∈ ts -> ts !! i = Some t -> x <> t -> x ∈ put_task i t' ts.
Proof.
  intros. destruct t'; cbn;
    [by eapply list_elem_of_insert_other | by eapply list_elem_of_delete_other].
Qed.

Lemma put_task_new i t t' ts :
  ts !! i = Some t -> t' ∈ put_task i (Some t') ts.
Proof. intros H. cbn. apply list_elem_of_insert. by eapply lookup_lt_Some. Qed.

Section Registered.

Variable Date_now : nat -> Z.

Lemma registered_same r r' ts ts' :
  registered r ts -> keeps ts ts' ->
  activeDownloads r' = activeDownloads r -> controllers r' = controllers r ->
  registered r' ts'.
Proof.
  intros H Hk Hm Hc i c Hi. rewrite Hm in Hi. rewrite Hc.
  destruct (H i c Hi) as (Hf & track & ph & Hin & Hact & Hid).
  split; [done|]. exists track, ph. split_and!; [by apply Hk | done | done].
Qed.

Lemma registered_loop r ts ts' :
  registered r ts -> keeps ts ts' ->
  (forall t, (loop Date_now r).2 = Some t -> t ∈ ts') ->
  registered (loop Date_now r).1 ts'.
Proof.
  intros H Hk Hnew. unfold loop in *. destruct (isProcessing r);
    [|by eapply registered_same].
  case_bool_decide.
  - destruct (queue (st r) !! 0%nat) as [track|];
      [|by eapply registered_same].
    unfold downloadTrack, downloadTrackClientSide, run_store in *.
    destruct (startDownload _ _ _ _) as [s' n']. cbn in *.
    intros i c Hi. cbn in Hi.
    destruct (decide (item_id track = i)) as [<-|Hne].
    + rewrite lookup_insert_eq in Hi. simplify_eq. split.
      * by rewrite (list_lookup_middle (controllers r) [] false).
      * exists track, AwaitStreamUrl. split_and!; [by apply Hnew | done | done].
    + rewrite lookup_insert_ne in Hi by done.
      destruct (H i c Hi) as (Hf & tr & ph & Hin & Hact & Hid).
      split; [by apply lookup_app_l_Some|].
      exists tr, ph. split_and!; [by apply Hk | done | done].
  - case_bool_decide; by eapply registered_same.
Qed.

Lemma registered_release track ctrl r r1 ts ts' :
  registered r ts ->
  activeDownloads r1 = activeDownloads r -> controllers r1 = controllers r ->
  (forall tr c ph, Transferring tr c ph ∈ ts -> active ph = true ->
     item_id tr <> item_id track -> Transferring tr c ph ∈ ts') ->
  registered (release track ctrl r1).1 ts'.
Proof.
  intros H Hm Hc Hk i c Hi. cbn in Hi. rewrite Hm in Hi. cbn. rewrite Hc.
  apply lookup_delete_Some in Hi as [Hne Hi].
  destruct (H i c Hi) as (Hf & tr & ph & Hin & Hact & Hid).
  split; [done|]. exists tr, ph. split_and!; [|done..].
  apply Hk; [done | done | congruence].
Qed.

Lemma run_store_manager f r :
  activeDownloads (run_store f r) = activeDownloads r /\
  controllers (run_store f r) = controllers r.
Proof. unfold run_store. by destruct (f (st r) (reads r)). Qed.

Lemma registered_resume i t resp r r' t' ts :
  registered r ts -> ts !! i = Some t ->
  resume_task Date_now t resp r = Some (r', t') ->
  registered r' (put_task i t' ts).
Proof.
  intros H Hi Hres.
  assert (Hidle : (forall tr c ph, t = Transferring tr c ph -> active ph = false) ->
                  keeps ts (put_task i t' ts)).
  { intros Hin tr c ph Hel Hact. eapply put_task_other; [done | done |].
    intros <-. by rewrite (Hin tr c ph eq_refl) in Hact. }
  assert (Hloop : (forall tr c ph, t = Transferring tr c ph -> active ph = false) ->
                  loop Date_now r = (r', t') -> registered r' (put_task i t' ts)).
  { intros Hin Hl. replace r' with (loop Date_now r).1 by (by rewrite Hl).
    apply (registered_loop r ts); [done | by apply Hidle |].
    rewrite Hl. cbn. intros t0 ->. by eapply put_task_new. }
  destruct t as [ms|track ctrl ph]; cbn in Hres.
  - destruct resp; simplify_eq. by apply Hloop.
  - assert (Hstay : forall ph' r1,
              active ph' = true ->
              activeDownloads r1 = activeDownloads r ->
              controllers r1 = controllers r ->
              registered r1
                (put_task i (Some (Transferring track ctrl ph')) ts)).
    { intros ph' r1 Hact' Hm Hc j c Hj. rewrite Hm in Hj. rewrite Hc.
      destruct (H j c Hj) as (Hf & tr & ph0 & Hin & Hact & Hid).
      split; [done|].
      destruct (decide (Transferring tr c ph0 = Transferring track ctrl ph))
        as [[= -> -> ->]|Hne].
      - exists track, ph'. split_and!; [by eapply put_task_new | done | done].
      - exists tr, ph0. split_and!; [by eapply put_task_other | done | done]. }
    assert (Hend : forall r1,
              activeDownloads r1 = activeDownloads r ->
              controllers r1 = controllers r ->
              registered (release track ctrl r1).1
                (put_task i (Some (Transferring track ctrl AwaitRateLimit)) ts)).
    { intros r1 Hm Hc. eapply registered_release; [done | done | done |].
      intros tr c ph0 Hin Hact Hne. eapply put_task_other; [done | done |].
      intros [= -> -> ->]. done. }
    destruct ph, resp; cbn in Hres; simplify_eq;
      repeat (case_match; simplify_eq);
      unfold caught, cancelled in *;
      try (by apply Hstay);
      try (match goal with
           | H : release _ _ (run_store ?f r) = (r', t') |- _ =>
               destruct (run_store_manager f r) as [Hm Hc];
               pose proof (Hend (run_store f r) Hm Hc) as Hreg;
               unfold release in H, Hreg; cbn [fst] in Hreg;
               simplify_eq; exact Hreg
           end).
    apply Hloop; [by intros ? ? ? [= <- <- <-] | done].
Qed.

Lemma registered_step e w w' :
  registered (rt w) (tasks w) -> step Date_now e w = Some w' ->
  registered (rt w') (tasks w').
Proof.
  intros H Hstep. destruct e; cbn [step] in Hstep; simplify_eq;
    try (by eapply registered_same; [exact H | by intros ? | done | done]).
  - unfold start. destruct (isProcessing (rt w)); [done|].
    pose proof (registered_loop (with_isProcessing true (rt w)) (tasks w)
                  (tasks w ++ option_list (loop Date_now
                     (with_isProcessing true (rt w))).2)) as Hl.
    destruct (loop Date_now (with_isProcessing true (rt w))) as [r' t].
    cbn in *. apply Hl.
    + eapply registered_same; [exact H | by intros ? | done | done].
    + intros tr c ph Hin _. apply elem_of_app. by left.
    + intros t0 ->. apply elem_of_app. right. left.
  - intros i c Hi. unfold stop in Hi. cbn [activeDownloads rt] in Hi.
    by rewrite lookup_empty in Hi.
  - cbn. destruct (run_store_manager (addToQueue Date_now tracks) (rt w)).
    by eapply registered_same; [exact H | by intros ? | done | done].
  - destruct (tasks w !! i) as [t|] eqn:Et; cbn in Hstep; [|done].
    destruct (resume_task Date_now t r (rt w)) as [[r' t']|] eqn:E;
      cbn in Hstep; simplify_eq.
    cbn. by eapply registered_resume.
Qed.

End Registered.



Section RegisteredDownloading.

Variable Date_now : nat -> Z.








End RegisteredDownloading.

(** *** Stopping *)



Lemma failDownload_failed (Date_now : nat -> Z) trackId err s n x :
  find_id trackId (downloading s) = Some x ->
  exists x',
    failed (failDownload Date_now trackId err s n).1 = failed s ++ [x'] /\
    error x' = Some err /\ item_status x' = failed_ /\
    item_id x' = item_id x /\ tidal_id x' = tidal_id x /\
    title x' = title x /\ artist x' = artist x.
Proof.
  intros H. unfold failDownload. rewrite H. unfold_clocked. cbn.
  eexists. split; [reflexivity|]. done.
Qed.





(** The scenario of the specification: stop() with two transfers in
    flight. Both items are still in downloading when stop() returns; once
    both coroutines were resumed, downloading is empty and the items are in
    failed with the text the code uses. *)
Example stop_with_two_in_flight :
  exists w,
    run ticking [Stop; Resume 0 AbortError; Resume 1 AbortError] two_in_flight
      = Some w /\
    length (downloading (st (rt two_in_flight))) = 2%nat /\
    length (downloading (st (rt (stop two_in_flight)))) = 2%nat /\
    downloading (st (rt w)) = [] /\
    error <$> failed (st (rt w)) =
      [Some "Download cancelled"; Some "Download cancelled";
       Some "Download cancelled"].
Proof. eexists. split; [vm_compute; reflexivity|]. by vm_compute. Qed.

(** stop() right after start(), while the one transfer awaits its stream
    URL: the AbortError cannot resume it yet; with a URL it reaches its
    fetch and is cancelled there, and when the request for the URL is
    rejected the item fails with the text of that error. *)
Example stop_right_after_start :
  (exists track, tasks just_started = [Transferring track 0 AwaitStreamUrl]) /\
  step ticking (Resume 0 AbortError) (stop just_started) = None /\
  (exists w,
     run ticking [Stop; Resume 0 (StreamData (Some "u")); Resume 0 AbortError]
       just_started = Some w /\
     downloading (st (rt w)) = [] /\
     error <$> failed (st (rt w)) = [Some "Download cancelled"]) /\
  (exists w,
     run ticking [Stop; Resume 0 (Rejected "Network Error")] just_started
       = Some w /\
     downloading (st (rt w)) = [] /\
     error <$> failed (st (rt w)) = [Some "Network Error"]).
Proof.
  split_and!.
  - eexists. vm_compute. reflexivity.
  - vm_compute. reflexivity.
  - eexists. split; [vm_compute; reflexivity|]. by vm_compute.
  - eexists. split; [vm_compute; reflexivity|]. by vm_compute.
Qed.



(** With the text of the code the same statement holds. *)
Example stop_fails_with_download_cancelled :
  settles ticking stopped stopped_aborted /\
  all_failed_with "Download cancelled" one_in_flight stopped_aborted.
Proof.
  split.
  - apply (settles_resume ticking stopped stopped 0 AbortError);
      [apply settles_here | vm_compute; reflexivity].
  - split; [vm_compute; reflexivity|]. intros x Hx. vm_compute in Hx.
    apply list_elem_of_singleton in Hx as ->.
    eexists. split; [vm_compute; left|]. vm_compute. done.
Qed.

(** ** File names *)

Lemma append_cons c s1 s2 : String c s1 +:+ s2 = String c (s1 +:+ s2).
Proof. reflexivity. Qed.

Lemma append_assoc s1 s2 s3 : s1 +:+ s2 +:+ s3 = (s1 +:+ s2) +:+ s3.
Proof.
  induction s1 as [|c s1 IH]; [done|]. by rewrite !append_cons, IH.
Qed.

Lemma replace_class_app cls b s1 s2 :
  replace_class cls b (s1 +:+ s2) =
    replace_class cls b s1 +:+ replace_class cls b s2.
Proof.
  induction s1 as [|c s1 IH]; [done|].
  rewrite append_cons. cbn [replace_class]. by rewrite append_cons, IH.
Qed.

Lemma replace_class_length cls b s :
  String.length (replace_class cls b s) = String.length s.
Proof. induction s as [|c s IH]; cbn; [done | by rewrite IH]. Qed.

Lemma replace_class_get cls b s n c :
  String.get n s = Some c ->
  String.get n (replace_class cls b s) = Some (if cls c then b else c).
Proof.
  revert n. induction s as [|a s IH]; intros n H; [done|].
  destruct n as [|n]; cbn in *; [by simplify_eq | by apply IH].
Qed.

(** None of the nine invalid characters is white space. *)
Lemma invalid_not_white c : invalid c = true -> white c = false.
Proof.
  destruct c as [[] [] [] [] [] [] [] []]; vm_compute; congruence.
Qed.

Lemma trimStart_replace s :
  trimStart (replace_class invalid "_"%char s) =
    replace_class invalid "_"%char (trimStart s).
Proof.
  induction s as [|c s IH]; [done|]. cbn [replace_class trimStart].
  destruct (invalid c) eqn:Hc.
  - rewrite (invalid_not_white c Hc).
    change (white "_") with false. cbn [replace_class]. by rewrite Hc.
  - destruct (white c); [done|]. cbn [replace_class]. by rewrite Hc.
Qed.

(** A name ending in [.flac] has no trailing white space to strip. *)
Lemma trimEnd_flac u : trimEnd (u +:+ ".flac") = u +:+ ".flac".
Proof.
  induction u as [|c u IH]; [done|].
  rewrite append_cons. cbn [trimEnd]. rewrite IH. by destruct u.
Qed.

(** Stripping leading white space keeps the extension. *)
Lemma trimStart_flac u : exists u', trimStart (u +:+ ".flac") = u' +:+ ".flac".
Proof.
  induction u as [|c u [u' IH]]; [by exists ""|].
  rewrite append_cons. cbn [trimStart]. destruct (white c); [by exists u'|].
  by exists (String c u).
Qed.

(** C8, as amended: the file name of a completed client-side transfer is
    the template artist - title.flac in which every invalid character is
    replaced by an underscore and every other character kept, and from
    which leading white space is then stripped; it is exactly the replaced
    template when the artist starts with a character that is not white
    space. *)
Theorem sanitized_flac_name (artist_ title_ : string) :
  let name := flac_name artist_ title_ in
  let replaced := replace_class invalid "_"%char name in
  sanitizeFilename name = trimStart replaced /\
  String.length replaced = String.length name /\
  (forall n c, String.get n name = Some c ->
     String.get n replaced = Some (if invalid c then "_"%char else c)) /\
  (forall c rest, artist_ = String c rest -> white c = false ->
     sanitizeFilename name = replaced).
Proof.
  cbn zeta.
  assert (Htrim : sanitizeFilename (flac_name artist_ title_) =
                  trimStart (replace_class invalid "_"%char
                               (flac_name artist_ title_))).
  { unfold sanitizeFilename, trim, flac_name.
    replace (artist_ +:+ " - " +:+ title_ +:+ ".flac")
      with ((artist_ +:+ " - " +:+ title_) +:+ ".flac")
      by (by rewrite <- !append_assoc).
    rewrite replace_class_app.
    change (replace_class invalid "_"%char ".flac") with ".flac".
    destruct (trimStart_flac (replace_class invalid "_"%char
                                (artist_ +:+ " - " +:+ title_)))
      as [u' ->].
    apply trimEnd_flac. }
  split_and!.
  - exact Htrim.
  - apply replace_class_length.
  - intros n c. apply replace_class_get.
  - intros c rest -> Hc. rewrite Htrim, trimStart_replace.
    unfold flac_name. rewrite append_cons. cbn [trimStart]. by rewrite Hc.
Qed.

Lemma sanitized_flac_name_witness :
  "AC/DC" = String "A" "C/DC" /\ white "A" = false /\
  sanitizeFilename (flac_name "AC/DC" "Who? *") = "AC_DC - Who_ _.flac".
Proof.
  split; [reflexivity|]. split; [reflexivity|].
  destruct (sanitized_flac_name "AC/DC" "Who? *") as (_ & _ & _ & H).
  rewrite (H "A"%char "C/DC" eq_refl eq_refl). reflexivity.
Defined.

(** C8, as stated, fails: for an artist that starts with a space the file
    name is not the replaced template, because trim strips the space. *)
Lemma sanitizeFilename_trims :
  ~ named_by_template " A" "B".
Proof. unfold named_by_template. vm_compute. discriminate. Qed.

(** * Further properties *)

(** ** The store *)

Lemma survivors_none tracks s :
  (forall t, t ∈ tracks -> t_tidal_id t ∈ catalog_ids s) ->
  survivors tracks s = [].
Proof.
  intros H. unfold survivors, existingIds. fold (catalog_ids s).
  induction tracks as [|t ts IH]; [done|].
  rewrite filter_cons_False.
  - apply IH. intros u Hu. apply H. by right.
  - intros Hn. apply Hn. apply elem_of_list_to_set. apply H. left.
Qed.

Lemma addToQueue_covers (Date_now : nat -> Z) tracks s n t :
  t ∈ tracks ->
  t_tidal_id t ∈ catalog_ids (addToQueue Date_now tracks s n).1.
Proof.
  intros Ht.
  destruct (addToQueue_skips_existing Date_now tracks s n)
    as (Hq & Hd & Hc & _).
  unfold catalog_ids at 1. rewrite Hq, Hd, Hc.
  destruct (decide (t_tidal_id t ∈ catalog_ids s)) as [Hin|Hout].
  - unfold catalog_ids in Hin. rewrite !elem_of_app in *. tauto.
  - rewrite !elem_of_app. left. right. apply list_elem_of_filter.
    split; [done|]. by apply list_elem_of_fmap_2.
Qed.

(** X1: addToQueue is idempotent. A second call with the same batch, at
    any later clock reading, returns the store of the first call and reads
    no clock, whatever the batch and the store: every catalog id of the
    batch is by then in queue, downloading or completed. *)
Theorem addToQueue_twice (Date_now : nat -> Z) (tracks : list track)
    (s : store) (n n' : nat) :
  addToQueue Date_now tracks (addToQueue Date_now tracks s n).1 n' =
    ((addToQueue Date_now tracks s n).1, n').
Proof.
  unfold addToQueue at 1.
  rewrite survivors_none by (intros t Ht; by apply addToQueue_covers).
  reflexivity.
Qed.

(** X2: for a batch that names no catalog id twice and a store whose
    queue, downloading and completed hold no catalog id twice, addToQueue
    keeps it so; it appends to the queue, in the order of the batch, the
    descriptors whose catalog id the three collections did not hold, leaves
    downloading, completed and failed as they were, and the number added
    and the number skipped add up to the size of the batch. *)
Theorem addToQueue_dedups_against_store (Date_now : nat -> Z)
    (tracks : list track) (s : store) (n : nat) :
  NoDup (catalog_ids s) ->
  NoDup (t_tidal_id <$> tracks) ->
  let s' := (addToQueue Date_now tracks s n).1 in
  NoDup (catalog_ids s') /\
  tidal_id <$> queue s' =
    (tidal_id <$> queue s)
      ++ filter (fun c => c ∉ catalog_ids s) (t_tidal_id <$> tracks) /\
  downloading s' = downloading s /\ completed s' = completed s /\
  failed s' = failed s /\
  (addedCount tracks s + duplicateCount tracks s = length tracks)%nat.
Proof.
  intros Hs Hb. split.
  - by apply addToQueue_no_new_duplicates.
  - apply addToQueue_skips_existing.
Qed.

Lemma addToQueue_dedups_against_store_witness :
  let s := (addToQueue ticking five (initial_store 3) 0).1 in
  let batch := [Track 5 "T" "X" None; Track 6 "U" "X" None] in
  NoDup (catalog_ids s) /\ NoDup (t_tidal_id <$> batch) /\
  tidal_id <$> queue (addToQueue ticking batch s 10).1 = [1; 2; 3; 4; 5; 6]%Z /\
  addedCount batch s = 1%nat /\ duplicateCount batch s = 1%nat.
Proof.
  assert (Hs : NoDup (catalog_ids (addToQueue ticking five (initial_store 3) 0).1))
    by compute_decide.
  assert (Hb : NoDup (t_tidal_id <$>
                        [Track 5 "T" "X" None; Track 6 "U" "X" None]))
    by compute_decide.
  destruct (addToQueue_dedups_against_store ticking
              [Track 5 "T" "X" None; Track 6 "U" "X" None]
              (addToQueue ticking five (initial_store 3) 0).1 10 Hs Hb)
    as (_ & Hq & _).
  refine (conj Hs (conj Hb (conj _ (conj eq_refl eq_refl)))).
  rewrite Hq. vm_compute. reflexivity.
Defined.

(** *** Counting *)

Lemma without_id_found trackId l t :
  find_id trackId l = Some t ->
  (length (without_id trackId l) < length l)%nat.
Proof.
  intros H. apply find_id_Some in H as [Hin Hid].
  apply (length_filter_lt _ _ t); [done | by intros ?].
Qed.

Lemma without_id_found_nodup trackId l t :
  NoDup (ids l) -> find_id trackId l = Some t ->
  (length (without_id trackId l) + 1 = length l)%nat.
Proof.
  intros Hnd H. pose proof (without_id_found _ _ _ H).
  pose proof (without_id_nodup trackId l Hnd). lia.
Qed.

(** X3: the four moves between collections never create an item: the
    total that getStats reports does not grow under startDownload,
    completeDownload, failDownload or retryFailed, and updateProgress
    leaves all five counts as they are. When the ids of the source
    collection are distinct the total stays the same: no item is lost. *)
Theorem moves_conserve_items (Date_now : nat -> Z) (trackId : string)
    (s : store) (n : nat) :
  (forall s', s' = (startDownload Date_now trackId s n).1 ->
     (n_total (getStats s') <= n_total (getStats s))%nat /\
     (NoDup (ids (queue s)) -> n_total (getStats s') = n_total (getStats s))) /\
  (forall fname s', s' = (completeDownload Date_now trackId fname s n).1 ->
     (n_total (getStats s') <= n_total (getStats s))%nat /\
     (NoDup (ids (downloading s)) ->
      n_total (getStats s') = n_total (getStats s))) /\
  (forall err s', s' = (failDownload Date_now trackId err s n).1 ->
     (n_total (getStats s') <= n_total (getStats s))%nat /\
     (NoDup (ids (downloading s)) ->
      n_total (getStats s') = n_total (getStats s))) /\
  (forall s', s' = retryFailed trackId s ->
     (n_total (getStats s') <= n_total (getStats s))%nat /\
     (NoDup (ids (failed s)) -> n_total (getStats s') = n_total (getStats s))) /\
  (forall p, getStats (updateProgress trackId p s) = getStats s).
Proof.
  split_and!.
  - intros s' ->. unfold startDownload.
    destruct (find_id trackId (queue s)) as [t|] eqn:E; [|done].
    unfold_clocked. cbn. rewrite !length_app. cbn.
    pose proof (without_id_found _ _ _ E). split; [lia|]. intros Hnd.
    pose proof (without_id_found_nodup _ _ _ Hnd E). lia.
  - intros fname s' ->. unfold completeDownload.
    destruct (find_id trackId (downloading s)) as [t|] eqn:E; [|done].
    unfold_clocked. cbn. rewrite !length_app. cbn.
    pose proof (without_id_found _ _ _ E). split; [lia|]. intros Hnd.
    pose proof (without_id_found_nodup _ _ _ Hnd E). lia.
  - intros err s' ->. unfold failDownload.
    destruct (find_id trackId (downloading s)) as [t|] eqn:E; [|done].
    unfold_clocked. cbn. rewrite !length_app. cbn.
    pose proof (without_id_found _ _ _ E). split; [lia|]. intros Hnd.
    pose proof (without_id_found_nodup _ _ _ Hnd E). lia.
  - intros s' ->. unfold retryFailed.
    destruct (find_id trackId (failed s)) as [t|] eqn:E; [|done].
    cbn. rewrite !length_app. cbn.
    pose proof (without_id_found _ _ _ E). split; [lia|]. intros Hnd.
    pose proof (without_id_found_nodup _ _ _ Hnd E). lia.
  - intros p. unfold getStats, updateProgress. cbn. by rewrite !length_fmap.
Qed.

Lemma moves_conserve_items_witness :
  let s := (addToQueue ticking five (initial_store 3) 0).1 in
  NoDup (ids (queue s)) /\
  n_total (getStats s) = 5%nat /\
  n_total (getStats (startDownload ticking "3-1700000000004" s 10).1) = 5%nat /\
  n_downloading (getStats (startDownload ticking "3-1700000000004" s 10).1)
    = 1%nat.
Proof.
  assert (Hnd : NoDup (ids (queue (addToQueue ticking five (initial_store 3) 0).1)))
    by compute_decide.
  destruct (moves_conserve_items ticking "3-1700000000004"
              (addToQueue ticking five (initial_store 3) 0).1 10)
    as (Hstart & _).
  destruct (Hstart _ eq_refl) as [_ Heq].
  refine (conj Hnd (conj eq_refl (conj _ eq_refl))).
  rewrite (Heq Hnd). reflexivity.
Defined.

(** *** Store invariants are invariants of the reachable worlds *)

(** A property of the store that every action keeps. *)
Record store_invariant (Date_now : nat -> Z) (P : store -> Prop) : Prop := {
  inv_addToQueue tracks s n : P s -> P (addToQueue Date_now tracks s n).1;
  inv_removeFromQueue i s : P s -> P (removeFromQueue i s);
  inv_startDownload i s n : P s -> P (startDownload Date_now i s n).1;
  inv_updateProgress i p s : P s -> P (updateProgress i p s);
  inv_completeDownload i f s n : P s -> P (completeDownload Date_now i f s n).1;
  inv_failDownload i e s n : P s -> P (failDownload Date_now i e s n).1;
  inv_retryFailed i s : P s -> P (retryFailed i s);
  inv_clearCompleted s : P s -> P (clearCompleted s);
  inv_clearFailed s : P s -> P (clearFailed s);
  inv_setQuality q s : P s -> P (setQuality q s)
}.

Section Lifting.

Variable Date_now : nat -> Z.
Variable P : store -> Prop.
Hypothesis HP : store_invariant Date_now P.

Lemma lift_run_store f r :
  (forall s n, P s -> P (f s n).1) -> P (st r) -> P (st (run_store f r)).
Proof.
  intros Hf Hr. unfold run_store. specialize (Hf (st r) (reads r) Hr).
  by destruct (f (st r) (reads r)).
Qed.

Lemma lift_loop r : P (st r) -> P (st (loop Date_now r).1).
Proof.
  intros Hr. unfold loop. destruct (isProcessing r); [|done].
  case_bool_decide.
  - destruct (queue (st r) !! 0%nat) as [track|]; [|done].
    unfold downloadTrack, downloadTrackClientSide. cbn.
    apply lift_run_store; [|done]. intros. by apply HP.
  - by case_bool_decide.
Qed.

Lemma lift_resume t resp r r' t' :
  P (st r) -> resume_task Date_now t resp r = Some (r', t') -> P (st r').
Proof.
  intros Hr Hres.
  assert (Hloop : P (st (loop Date_now r).1)) by by apply lift_loop.
  assert (Hfail : forall i e, P (st (run_store (failDownload Date_now i e) r))).
  { intros. apply lift_run_store; [|done]. intros. by apply HP. }
  destruct t as [ms|track ctrl ph]; cbn in Hres.
  - destruct resp; simplify_eq; by use_fst.
  - destruct ph, resp; cbn in Hres; simplify_eq;
      repeat (case_match; simplify_eq);
      unfold caught, cancelled, release in *; simplify_eq; cbn;
      try done; try (by use_fst).
    + by apply HP.
    + apply (lift_run_store (completeDownload Date_now (item_id track) _));
        [|done]. intros. by apply HP.
Qed.

Lemma lift_step e w w' :
  P (st (rt w)) -> step Date_now e w = Some w' -> P (st (rt w')).
Proof.
  intros Hw Hstep. destruct e; cbn [step] in Hstep; simplify_eq.
  - unfold start. destruct (isProcessing (rt w)); [done|].
    pose proof (lift_loop (with_isProcessing true (rt w)) Hw).
    by destruct (loop Date_now (with_isProcessing true (rt w))).
  - done.
  - cbn. apply lift_run_store; [|done]. intros. by apply HP.
  - cbn. by apply HP.
  - cbn. by apply HP.
  - cbn. by apply HP.
  - cbn. by apply HP.
  - cbn. by apply HP.
  - destruct (tasks w !! i) as [t|]; cbn in Hstep; [|done].
    destruct (resume_task Date_now t r (rt w)) as [[r' t']|] eqn:E;
      cbn in Hstep; simplify_eq.
    cbn. by eapply lift_resume.
Qed.

Lemma lift_reachable mc w :
  P (initial_store mc) -> reachable Date_now mc w -> P (st (rt w)).
Proof.
  intros H0. induction 1 as [|w e w' _ IH Hstep]; [done|].
  by eapply lift_step.
Qed.

End Lifting.

Lemma Forall_without_id (Q : item -> Prop) trackId l :
  Forall Q l -> Forall Q (without_id trackId l).
Proof.
  rewrite !Forall_forall. intros H x Hx.
  apply list_elem_of_filter in Hx as [_ Hx]. by apply H.
Qed.

Lemma find_id_Forall (Q : item -> Prop) trackId l t :
  Forall Q l -> find_id trackId l = Some t -> Q t.
Proof.
  intros H Hf. apply find_id_Some in Hf as [Hin _].
  rewrite Forall_forall in H. by apply H.
Qed.

Lemma new_items_queued_ok (Date_now : nat -> Z) ts n :
  Forall queued_ok (new_items Date_now ts n).1.
Proof.
  revert n. induction ts as [|t ts IH]; intros n; [by constructor|].
  rewrite new_items_cons. cbn. constructor; [|apply IH].
  unfold new_item. unfold_clocked. by cbn.
Qed.

Lemma lifecycle_invariant (Date_now : nat -> Z) :
  store_invariant Date_now lifecycle_ok.
Proof.
  split.
  - intros tracks s n (Hq & Hd & Hc & Hf). unfold addToQueue. unfold_clocked.
    pose proof (new_items_queued_ok Date_now (survivors tracks s) n) as Hn.
    destruct (new_items Date_now (survivors tracks s) n) as [is' n'].
    case_decide; cbn; [done|]. split_and!; try done.
    by apply Forall_app.
  - intros i s (Hq & Hd & Hc & Hf). split_and!; try done.
    by apply Forall_without_id.
  - intros i s n (Hq & Hd & Hc & Hf). unfold startDownload.
    destruct (find_id i (queue s)) as [t|] eqn:E; [|done].
    destruct (find_id_Forall _ _ _ _ Hq E) as (? & ? & ? & ?).
    unfold_clocked. cbn. split_and!; try done.
    + by apply Forall_without_id.
    + apply Forall_app. split; [done|]. constructor; [|done].
      split_and!; cbn; eauto.
  - intros i p s (Hq & Hd & Hc & Hf). split_and!; try done.
    cbn. apply Forall_fmap. eapply Forall_impl; [exact Hd|].
    intros x Hx. cbn. by case_decide.
  - intros i f s n (Hq & Hd & Hc & Hf). unfold completeDownload.
    destruct (find_id i (downloading s)) as [t|] eqn:E; [|done].
    destruct (find_id_Forall _ _ _ _ Hd E) as (? & ? & ? & ?).
    unfold_clocked. cbn. split_and!; try done.
    + by apply Forall_without_id.
    + apply Forall_app. split; [done|]. constructor; [|done].
      split_and!; cbn; eauto.
  - intros i e s n (Hq & Hd & Hc & Hf). unfold failDownload.
    destruct (find_id i (downloading s)) as [t|] eqn:E; [|done].
    destruct (find_id_Forall _ _ _ _ Hd E) as (? & ? & ? & ?).
    unfold_clocked. cbn. split_and!; try done.
    + by apply Forall_without_id.
    + apply Forall_app. split; [done|]. constructor; [|done].
      split_and!; cbn; eauto.
  - intros i s (Hq & Hd & Hc & Hf). unfold retryFailed.
    destruct (find_id i (failed s)) as [t|] eqn:E; [|done].
    destruct (find_id_Forall _ _ _ _ Hf E) as (? & ? & ? & ?).
    cbn. split_and!; try done.
    + apply Forall_app. split; [done|]. constructor; [|done].
      split_and!; cbn; eauto.
    + by apply Forall_without_id.
  - intros s (Hq & Hd & Hc & Hf). split_and!; try done; cbn; constructor.
  - intros s (Hq & Hd & Hc & Hf). split_and!; try done; cbn; constructor.
  - intros q s (Hq & Hd & Hc & Hf). by split_and!.
Qed.

(** X4: in every world reachable from the initial one, the lifecycle
    fields of an item agree with the collection it is in. A queued item has
    status queued, progress 0, no error and no file name; a downloading
    item has status downloading, a start time, no error and no file name; a
    completed item has status completed, progress 100, a file name, a
    completion time and no error; a failed item has status failed, an error
    text, a failure time and no file name. *)
Theorem lifecycle_fields_agree (Date_now : nat -> Z) (mc : Z) (w : world) :
  reachable Date_now mc w -> lifecycle_ok (st (rt w)).
Proof.
  apply (lift_reachable Date_now lifecycle_ok (lifecycle_invariant Date_now)).
  by split_and!; constructor.
Qed.

Lemma lifecycle_fields_agree_witness :
  reachable ticking 2 two_in_flight /\
  length (failed (st (rt two_in_flight))) = 1%nat /\
  lifecycle_ok (st (rt two_in_flight)).
Proof.
  assert (Hr : reachable ticking 2 two_in_flight).
  { eapply run_reachable; [apply reach_init | apply two_in_flight_run]. }
  exact (conj Hr (conj eq_refl (lifecycle_fields_agree ticking 2 _ Hr))).
Defined.

(** X5: updateProgress stores the value it is given in every downloading
    item with the id and in no other item: a second value for the same id
    replaces the first, also when it is smaller, updates for different ids
    commute, and the ids of downloading and their order stay as they are. *)
Theorem updateProgress_composes (i j : string) (p q : Z) (s : store) :
  updateProgress i q (updateProgress i p s) = updateProgress i q s /\
  (i <> j ->
   updateProgress i p (updateProgress j q s) =
     updateProgress j q (updateProgress i p s)) /\
  ids (downloading (updateProgress i p s)) = ids (downloading s) /\
  (forall x, x ∈ downloading (updateProgress i p s) ->
     item_id x = i -> progress x = p) /\
  (forall x, x ∈ downloading s -> item_id x <> i ->
     x ∈ downloading (updateProgress i p s)).
Proof.
  split_and!.
  - unfold updateProgress, set_downloading. cbn. f_equal.
    rewrite <- list_fmap_compose. apply list_fmap_ext. intros _ x _. cbn.
    destruct (decide (item_id x = i)) as [Hi|Hi]; unfold with_progress; cbn.
    + by rewrite decide_True.
    + by rewrite decide_False.
  - intros Hij. unfold updateProgress, set_downloading. cbn. f_equal.
    rewrite <- !list_fmap_compose. apply list_fmap_ext. intros _ x _. cbn.
    destruct (decide (item_id x = i)) as [Hi|Hi],
             (decide (item_id x = j)) as [Hj|Hj];
      unfold with_progress; cbn;
      rewrite ?(decide_True _ _ Hi), ?(decide_False _ _ Hi),
              ?(decide_True _ _ Hj), ?(decide_False _ _ Hj);
      congruence.
  - apply updateProgress_ids.
  - intros x Hx Hid. unfold updateProgress in Hx. cbn in Hx.
    apply list_elem_of_fmap in Hx as (y & -> & _).
    destruct (decide (item_id y = i)) as [|Hne]; [done|].
    by destruct Hne.
  - intros x Hx Hne. unfold updateProgress. cbn.
    apply list_elem_of_fmap. exists x. by rewrite decide_False.
Qed.

Lemma updateProgress_composes_witness :
  "a" <> "b" /\
  updateProgress "a" 10 (updateProgress "b" 90 (initial_store 3)) =
    updateProgress "b" 90 (updateProgress "a" 10 (initial_store 3)).
Proof.
  assert (H : "a" <> "b") by discriminate.
  destruct (updateProgress_composes "a" "b" 10 90 (initial_store 3))
    as (_ & Hc & _).
  exact (conj H (Hc H)).
Defined.

(** X6: failing and then retrying a download whose id is carried by one
    downloading item and by no failed one brings the item back to the tail
    of the queue: status queued, progress 0, no error, the failure time
    kept, catalog id, title, artist and id as they were; it is gone from
    downloading, and failed and completed are what they were. *)
Theorem fail_then_retry (Date_now : nat -> Z) (trackId err : string)
    (s : store) (n : nat) (l1 : list item) (t : item) (l2 : list item) :
  downloading s = l1 ++ t :: l2 ->
  item_id t = trackId ->
  trackId ∉ ids (l1 ++ l2) ->
  trackId ∉ ids (failed s) ->
  exists t',
    retryFailed trackId (failDownload Date_now trackId err s n).1 =
      Store (queue s ++ [t']) (l1 ++ l2) (completed s) (failed s)
            (quality s) (maxConcurrent s) /\
    item_status t' = queued /\ progress t' = 0%Z /\ error t' = None /\
    failedAt t' = Some (Date_now n) /\
    tidal_id t' = tidal_id t /\ title t' = title t /\ artist t' = artist t /\
    item_id t' = item_id t.
Proof.
  intros Hd Ht Hl Hf.
  assert (Hl1 : trackId ∉ ids l1).
  { unfold ids in *. rewrite fmap_app, not_elem_of_app in Hl. tauto. }
  unfold failDownload. rewrite Hd, find_id_first by done.
  rewrite without_id_one by done. unfold_clocked. cbn.
  unfold retryFailed.
  cbn [failed queue downloading completed quality maxConcurrent].
  rewrite (find_id_first trackId (failed s) _ []) by done.
  rewrite (without_id_one trackId (failed s) _ [])
    by (by rewrite ?app_nil_r).
  eexists. split; [by rewrite app_nil_r|]. by cbn.
Qed.

Lemma fail_then_retry_witness :
  let s := (startDownload ticking "1-1700000000000"
              (addToQueue ticking [trackA] (initial_store 3) 0).1 2).1 in
  exists t t',
    downloading s = [] ++ t :: [] /\ item_id t = "1-1700000000000" /\
    ("1-1700000000000" ∉ ids ([] ++ [])) /\
    ("1-1700000000000" ∉ ids (failed s)) /\
    retryFailed "1-1700000000000"
      (failDownload ticking "1-1700000000000" "HTTP 404" s 3).1 =
      Store [t'] [] [] [] "LOSSLESS" 3 /\ error t' = None.
Proof.
  eexists.
  destruct (fail_then_retry ticking "1-1700000000000" "HTTP 404"
              (startDownload ticking "1-1700000000000"
                 (addToQueue ticking [trackA] (initial_store 3) 0).1 2).1
              3 [] _ [] eq_refl eq_refl (not_elem_of_nil _)
              (not_elem_of_nil _))
    as (t' & Hr & _ & _ & He & _).
  exists t'. split_and!; [reflexivity | reflexivity | apply not_elem_of_nil
                         | apply not_elem_of_nil | exact Hr | exact He].
Defined.

Lemma addToQueue_one_new (Date_now : nat -> Z) t s n :
  t_tidal_id t ∉ catalog_ids s ->
  addToQueue Date_now [t] s n =
    (set_queue (queue s ++ [(new_item Date_now t n).1]) s, S (S n)).
Proof.
  intros H. unfold addToQueue, survivors, existingIds. fold (catalog_ids s).
  rewrite filter_cons_True by (by rewrite elem_of_list_to_set).
  rewrite filter_nil. unfold new_items, new_item. unfold_clocked. by cbn.
Qed.

(** X7: a completed track blocks its own re-download until completed is
    cleared. addToQueue of a descriptor whose catalog id is in completed
    changes nothing; after clearCompleted, if queue and downloading do not
    hold the catalog id either, the same call queues the track. *)
Theorem completed_blocks_until_cleared (Date_now : nat -> Z) (t : track)
    (s : store) (n : nat) :
  t_tidal_id t ∈ tidal_id <$> completed s ->
  addToQueue Date_now [t] s n = (s, n) /\
  (t_tidal_id t ∉ (tidal_id <$> queue s) ++ (tidal_id <$> downloading s) ->
   exists x,
     addToQueue Date_now [t] (clearCompleted s) n =
       (set_queue (queue s ++ [x]) (clearCompleted s), S (S n)) /\
     tidal_id x = t_tidal_id t /\ title x = t_title t /\ queued_ok x).
Proof.
  intros Hc. split.
  - unfold addToQueue. rewrite survivors_none; [done|].
    intros u ->%list_elem_of_singleton. unfold catalog_ids.
    rewrite !elem_of_app. tauto.
  - intros Hqd. eexists. split.
    + rewrite addToQueue_one_new; [reflexivity|].
      unfold catalog_ids. cbn. by rewrite app_nil_r.
    + unfold new_item. unfold_clocked. by cbn.
Qed.

Lemma completed_blocks_until_cleared_witness :
  let s := after [addToQueue ticking [trackA];
                  startDownload ticking "1-1700000000000";
                  completeDownload ticking "1-1700000000000" "A.flac"] in
  t_tidal_id trackB ∈ tidal_id <$> completed s /\
  (t_tidal_id trackB ∉ (tidal_id <$> queue s) ++ (tidal_id <$> downloading s)) /\
  addToQueue ticking [trackB] s 4 = (s, 4%nat) /\
  title <$> queue (addToQueue ticking [trackB] (clearCompleted s) 4).1 = ["B"].
Proof.
  assert (Hc : t_tidal_id trackB ∈ tidal_id <$> completed
            (after [addToQueue ticking [trackA];
                    startDownload ticking "1-1700000000000";
                    completeDownload ticking "1-1700000000000" "A.flac"]))
    by compute_decide.
  destruct (completed_blocks_until_cleared ticking trackB _ 4 Hc)
    as [Hno _].
  refine (conj Hc (conj _ (conj Hno eq_refl))). apply not_elem_of_nil.
Defined.

(** X8: a failed track does not block its own re-download, and retryFailed
    does not look for duplicates. When the catalog id of a failed item is in
    none of queue, downloading and completed, addToQueue queues a
    descriptor of that catalog id beside the failed item, and retrying the
    failed item then leaves the catalog id twice in the queue. *)
Theorem failed_does_not_block (Date_now : nat -> Z) (t : track) (s : store)
    (n : nat) (l1 : list item) (f : item) (l2 : list item) :
  failed s = l1 ++ f :: l2 ->
  tidal_id f = t_tidal_id t ->
  item_id f ∉ ids (l1 ++ l2) ->
  t_tidal_id t ∉ catalog_ids s ->
  let s2 := retryFailed (item_id f) (addToQueue Date_now [t] s n).1 in
  tidal_id <$> queue s2 =
    (tidal_id <$> queue s) ++ [t_tidal_id t; t_tidal_id t] /\
  failed s2 = l1 ++ l2 /\
  ~ NoDup (catalog_ids s2).
Proof.
  intros Hf Htid Hothers Hfresh. cbn zeta.
  rewrite addToQueue_one_new by done. cbn [fst].
  assert (Hl1 : item_id f ∉ ids l1).
  { unfold ids in *. rewrite fmap_app, not_elem_of_app in Hothers. tauto. }
  unfold retryFailed, set_queue.
  cbn [failed queue downloading completed quality maxConcurrent].
  rewrite Hf, find_id_first by done.
  rewrite without_id_one by done.
  cbn [failed queue downloading completed quality maxConcurrent].
  assert (Hq : tidal_id <$>
                 (queue s ++ [(new_item Date_now t n).1]) ++ [requeued f] =
               (tidal_id <$> queue s) ++ [t_tidal_id t; t_tidal_id t]).
  { rewrite !fmap_app, <- app_assoc. cbn. unfold new_item. unfold_clocked.
    cbn. by rewrite Htid. }
  split_and!; [done | done |].
  unfold catalog_ids. cbn. rewrite Hq. intros Hnd.
  apply NoDup_app in Hnd as (Hnd & _ & _).
  apply NoDup_app in Hnd as (_ & _ & Hnd).
  apply NoDup_cons in Hnd as [Hnin _]. apply Hnin. left.
Qed.

Lemma failed_does_not_block_witness :
  let s := after [addToQueue ticking [trackA];
                  startDownload ticking "1-1700000000000";
                  failDownload ticking "1-1700000000000" "HTTP 404"] in
  exists f,
    failed s = [] ++ f :: [] /\ tidal_id f = t_tidal_id trackB /\
    (item_id f ∉ ids ([] ++ [])) /\ (t_tidal_id trackB ∉ catalog_ids s) /\
    title <$> queue (retryFailed (item_id f)
                       (addToQueue ticking [trackB] s 4).1) = ["B"; "A"] /\
    failed (retryFailed (item_id f) (addToQueue ticking [trackB] s 4).1)
      = [] ++ [].
Proof.
  eexists.
  assert (Hfresh : t_tidal_id trackB ∉ catalog_ids
            (after [addToQueue ticking [trackA];
                    startDownload ticking "1-1700000000000";
                    failDownload ticking "1-1700000000000" "HTTP 404"]))
    by apply not_elem_of_nil.
  destruct (failed_does_not_block ticking trackB
              (after [addToQueue ticking [trackA];
                      startDownload ticking "1-1700000000000";
                      failDownload ticking "1-1700000000000" "HTTP 404"])
              4 [] _ [] eq_refl eq_refl (not_elem_of_nil _) Hfresh)
    as (_ & Hf & _).
  split_and!; [reflexivity | reflexivity | apply not_elem_of_nil
              | exact Hfresh | reflexivity | exact Hf].
Defined.

(** ** File names, for any input *)

Lemma all_chars_trimStart P s :
  all_chars P s = true -> all_chars P (trimStart s) = true.
Proof.
  induction s as [|c s IH]; [done|]. cbn [trimStart all_chars].
  intros [Hc Hs]%andb_prop. destruct (white c); [by apply IH|].
  cbn. by rewrite Hc, Hs.
Qed.

Lemma all_chars_trimEnd P s :
  all_chars P s = true -> all_chars P (trimEnd s) = true.
Proof.
  induction s as [|c s IH]; [done|]. cbn [trimEnd all_chars].
  intros [Hc Hs]%andb_prop. specialize (IH Hs).
  destruct (trimEnd s) as [|d r].
  - destruct (white c); [done|]. cbn. by rewrite Hc.
  - cbn [all_chars] in *. by rewrite Hc, IH.
Qed.

Lemma replace_class_clean s :
  all_chars (fun c => negb (invalid c)) (replace_class invalid "_"%char s)
    = true.
Proof.
  induction s as [|c s IH]; [done|]. cbn [replace_class all_chars].
  rewrite IH, andb_true_r. by destruct (invalid c) eqn:E; [|rewrite E].
Qed.

Lemma replace_class_id s :
  all_chars (fun c => negb (invalid c)) s = true ->
  replace_class invalid "_"%char s = s.
Proof.
  induction s as [|c s IH]; [done|]. cbn [replace_class all_chars].
  intros [Hc Hs]%andb_prop. rewrite (IH Hs).
  by destruct (invalid c).
Qed.

Lemma trimStart_first s :
  forall c, first_char (trimStart s) = Some c -> white c = false.
Proof.
  induction s as [|a s IH]; [done|]. cbn [trimStart]. intros c.
  destruct (white a) eqn:E; [apply IH|]. cbn. by intros [= <-].
Qed.

Lemma trimEnd_first s :
  (forall c, first_char s = Some c -> white c = false) ->
  first_char (trimEnd s) = first_char s.
Proof.
  destruct s as [|a s]; [done|]. intros H. cbn [trimEnd].
  destruct (trimEnd s); [|done]. by rewrite (H a eq_refl).
Qed.

Lemma trimEnd_last s :
  forall c, last_char (trimEnd s) = Some c -> white c = false.
Proof.
  induction s as [|a s IH]; [done|]. cbn [trimEnd]. intros c.
  destruct (trimEnd s) as [|d r] eqn:E.
  - destruct (white a) eqn:Ha; [done|]. cbn. by intros [= <-].
  - cbn [last_char]. apply IH.
Qed.

Lemma trimEnd_idem s : trimEnd (trimEnd s) = trimEnd s.
Proof.
  induction s as [|a s IH]; [done|]. cbn [trimEnd].
  destruct (trimEnd s) as [|d r] eqn:E.
  - destruct (white a) eqn:Ha; [done|]. cbn [trimEnd]. by rewrite Ha.
  - cbn [trimEnd]. cbn [trimEnd] in IH. by rewrite IH.
Qed.

Lemma trimStart_id s :
  (forall c, first_char s = Some c -> white c = false) -> trimStart s = s.
Proof.
  destruct s as [|a s]; [done|]. intros H. cbn [trimStart].
  by rewrite (H a eq_refl).
Qed.

Lemma trim_idem s : trim (trim s) = trim s.
Proof.
  unfold trim. rewrite (trimStart_id (trimEnd (trimStart s))).
  - apply trimEnd_idem.
  - rewrite trimEnd_first by apply trimStart_first. apply trimStart_first.
Qed.

Lemma trimEnd_length s : (String.length (trimEnd s) <= String.length s)%nat.
Proof.
  induction s as [|a s IH]; [done|]. cbn [trimEnd].
  destruct (trimEnd s) as [|d r].
  - destruct (white a); cbn in *; lia.
  - cbn in *. lia.
Qed.

Lemma trimStart_length s : (String.length (trimStart s) <= String.length s)%nat.
Proof.
  induction s as [|a s IH]; [done|]. cbn [trimStart].
  destruct (white a); cbn in *; lia.
Qed.

Lemma sanitizeFilename_clean_chars fname :
  all_chars (fun c => negb (invalid c)) (sanitizeFilename fname) = true.
Proof.
  unfold sanitizeFilename, trim.
  apply all_chars_trimEnd, all_chars_trimStart, replace_class_clean.
Qed.

(** X9: whatever the input, the name sanitizeFilename returns holds none
    of the nine invalid characters, neither starts nor ends with white
    space, and is no longer than the input. *)
Theorem sanitizeFilename_clean (fname : string) :
  all_chars (fun c => negb (invalid c)) (sanitizeFilename fname) = true /\
  (forall c, first_char (sanitizeFilename fname) = Some c -> white c = false) /\
  (forall c, last_char (sanitizeFilename fname) = Some c -> white c = false) /\
  (String.length (sanitizeFilename fname) <= String.length fname)%nat.
Proof.
  split_and!; [apply sanitizeFilename_clean_chars | ..];
    unfold sanitizeFilename, trim.
  - intros c. rewrite trimEnd_first by apply trimStart_first.
    apply trimStart_first.
  - apply trimEnd_last.
  - pose proof (trimEnd_length
                  (trimStart (replace_class invalid "_"%char fname))).
    pose proof (trimStart_length (replace_class invalid "_"%char fname)).
    pose proof (replace_class_length invalid "_"%char fname). lia.
Qed.

(** X10: sanitizeFilename is idempotent: a sanitized name is returned as
    it is. *)
Theorem sanitizeFilename_idempotent (fname : string) :
  sanitizeFilename (sanitizeFilename fname) = sanitizeFilename fname.
Proof.
  unfold sanitizeFilename at 1.
  rewrite replace_class_id by apply sanitizeFilename_clean_chars.
  unfold sanitizeFilename. apply trim_idem.
Qed.

(** ** The scheduler *)

(** X11: dispatch is first in, first out. A turn of the loop of start()
    that finds the manager processing, a free slot and a non-empty queue
    launches the transfer of the head of the queue: the head leaves the
    queue, an item with its id, catalog id and title is appended to
    downloading with status downloading and the current time as start
    time, a fresh unaborted controller is registered under its id, and the
    loop is suspended in that transfer. *)
Theorem loop_dispatches_head (Date_now : nat -> Z) (r : runtime) (t : item)
    (q : list item) :
  isProcessing r = true ->
  queue (st r) = t :: q ->
  (Z.of_nat (length (downloading (st r))) < maxConcurrent (st r))%Z ->
  exists r' t',
    loop Date_now r =
      (r', Some (Transferring t (length (controllers r)) AwaitStreamUrl)) /\
    queue (st r') = without_id (item_id t) q /\
    downloading (st r') = downloading (st r) ++ [t'] /\
    item_id t' = item_id t /\ tidal_id t' = tidal_id t /\ title t' = title t /\
    item_status t' = downloading_ /\
    startedAt t' = Some (Date_now (reads r)) /\
    activeDownloads r' =
      <[item_id t := length (controllers r)]> (activeDownloads r) /\
    aborted (length (controllers r)) r' = false.
Proof.
  intros Hp Hq Hfree. unfold loop. rewrite Hp.
  rewrite bool_decide_eq_true_2 by (rewrite Hq; cbn; split; [done | lia]).
  rewrite Hq. cbn [lookup list_lookup].
  unfold downloadTrack, downloadTrackClientSide, run_store.
  destruct (startDownload_head Date_now t q (st r) (reads r) Hq)
    as (t' & -> & Hprops).
  cbn. eexists. exists t'. split; [reflexivity|]. cbn.
  split_and!; try tauto; try done.
  unfold aborted. cbn. apply bool_decide_eq_false.
  rewrite (list_lookup_middle (controllers r) [] false) by done. congruence.
Qed.

Lemma loop_dispatches_head_witness :
  let r := with_isProcessing true
             (run_store (addToQueue ticking five) (rt (initial_world 2))) in
  exists t q,
    isProcessing r = true /\ queue (st r) = t :: q /\
    (Z.of_nat (length (downloading (st r))) < maxConcurrent (st r))%Z /\
    tidal_id t = 1%Z /\
    tidal_id <$> queue (st (loop ticking r).1) = [2; 3; 4; 5]%Z /\
    tidal_id <$> downloading (st (loop ticking r).1) = [1%Z].
Proof.
  do 2 eexists.
  assert (Hfree : (Z.of_nat (length (downloading (st (with_isProcessing true
             (run_store (addToQueue ticking five) (rt (initial_world 2)))))))
           < maxConcurrent (st (with_isProcessing true
             (run_store (addToQueue ticking five) (rt (initial_world 2))))))%Z)
    by (vm_compute; reflexivity).
  destruct (loop_dispatches_head ticking
              (with_isProcessing true
                 (run_store (addToQueue ticking five) (rt (initial_world 2))))
              _ _ eq_refl eq_refl Hfree)
    as (r' & t' & Hloop & Hq & Hd & _ & Htid & _).
  split_and!; [reflexivity | reflexivity | exact Hfree | reflexivity | | ];
    rewrite Hloop; cbn [fst].
  - rewrite Hq. vm_compute. reflexivity.
  - rewrite Hd, fmap_app. cbn. rewrite Htid. reflexivity.
Defined.

(** *** After stop() *)

Lemma failDownload_queue (Date_now : nat -> Z) i e s n :
  queue (failDownload Date_now i e s n).1 = queue s.
Proof. unfold failDownload. by destruct (find_id i (downloading s)). Qed.

Lemma completeDownload_queue (Date_now : nat -> Z) i f s n :
  queue (completeDownload Date_now i f s n).1 = queue s.
Proof. unfold completeDownload. by destruct (find_id i (downloading s)). Qed.

Lemma halted_resume (Date_now : nat -> Z) t resp r r' t' :
  halted r -> resume_task Date_now t resp r = Some (r', t') ->
  halted r' /\ queue (st r') = queue (st r).
Proof.
  intros [Hp Hm] Hres.
  assert (Hloop : loop Date_now r = (r, None)) by (unfold loop; by rewrite Hp).
  assert (Hfail : forall track e,
            halted (run_store (failDownload Date_now (item_id track) e) r) /\
            queue (st (run_store (failDownload Date_now (item_id track) e) r))
              = queue (st r)).
  { intros track e. unfold run_store.
    pose proof (failDownload_queue Date_now (item_id track) e (st r) (reads r)).
    by destruct (failDownload _ _ _ _ _). }
  assert (Hrel : forall track ctrl r0, halted r0 ->
            halted (release track ctrl r0).1).
  { intros track ctrl r0 [Hp0 Hm0]. split; [done|]. cbn. rewrite Hm0.
    apply delete_empty. }
  destruct t as [ms|track ctrl ph]; cbn in Hres.
  - destruct resp; simplify_eq. by rewrite Hloop in Hres; simplify_eq.
  - destruct ph, resp; cbn in Hres; simplify_eq;
      repeat (case_match; simplify_eq);
      try (by rewrite Hloop in Hres; simplify_eq);
      try done;
      unfold caught, cancelled in *;
      try (match goal with
           | H : release ?tr ?c ?r0 = (r', t') |- _ =>
               replace r' with (release tr c r0).1 by (by rewrite H);
               destruct (Hfail tr "") as [_ _];
               split; [apply Hrel | cbn]
           end);
      try (by apply Hfail).
    + unfold run_store. by destruct (completeDownload _ _ _ _ _).
    + unfold run_store.
      pose proof (completeDownload_queue Date_now (item_id track)
                    (sanitizeFilename (flac_name (artist track) (title track)))
                    (st r) (reads r)).
      by destruct (completeDownload _ _ _ _ _).
Qed.

(** X12: stop() stops the dispatch. From the world stop() leaves, however
    the event loop resumes the suspended coroutines, the queue stays as it
    was, the manager stays not processing with nothing registered, and the
    number of suspended coroutines does not grow. *)
Theorem stop_halts_dispatch (Date_now : nat -> Z) (w w' : world) :
  settles Date_now (stop w) w' ->
  queue (st (rt w')) = queue (st (rt w)) /\
  isProcessing (rt w') = false /\
  activeDownloads (rt w') = ∅ /\
  (length (tasks w') <= length (tasks w))%nat.
Proof.
  induction 1 as [|w1 i resp w2 _ IH Hstep]; [done|].
  destruct IH as (Hq & Hp & Hm & Hlen). cbn [step] in Hstep.
  destruct (tasks w1 !! i) as [t|] eqn:Et; cbn in Hstep; [|done].
  destruct (resume_task Date_now t resp (rt w1)) as [[r' t']|] eqn:E;
    cbn in Hstep; simplify_eq.
  destruct (halted_resume Date_now t resp (rt w1) r' t' (conj Hp Hm) E)
    as [[Hp' Hm'] Hq'].
  cbn. split_and!; [congruence | done | done |].
  destruct t' as [t'|]; cbn.
  - rewrite length_insert. done.
  - rewrite length_delete by by eexists. lia.
Qed.

Lemma settles_trans (Date_now : nat -> Z) w1 w2 w3 :
  settles Date_now w1 w2 -> settles Date_now w2 w3 -> settles Date_now w1 w3.
Proof.
  intros H12. induction 1 as [|w i resp w' _ IH Hstep]; [exact H12|].
  eapply settles_resume; [exact IH | exact Hstep].
Qed.

Lemma run_settles (Date_now : nat -> Z) (rs : list (nat * response)) w w' :
  run Date_now ((fun ir => Resume ir.1 ir.2) <$> rs) w = Some w' ->
  settles Date_now w w'.
Proof.
  revert w. induction rs as [|[i resp] rs IH]; intros w Hrun.
  - cbn in Hrun. simplify_eq. apply settles_here.
  - rewrite fmap_cons in Hrun. cbn [run fst snd] in Hrun.
    destruct (step Date_now (Resume i resp) w) as [w1|] eqn:E;
      cbn [mbind option_bind] in Hrun; [|done].
    eapply settles_trans; [|by apply IH].
    eapply settles_resume; [apply settles_here | exact E].
Qed.

Lemma stop_halts_dispatch_witness :
  settles ticking (stop two_in_flight) two_stopped /\
  length (tasks two_stopped) = 1%nat /\
  length (queue (st (rt two_stopped))) = 2%nat /\
  queue (st (rt two_stopped)) = queue (st (rt two_in_flight)).
Proof.
  assert (Hs : settles ticking (stop two_in_flight) two_stopped).
  { apply (run_settles ticking [(0%nat, AbortError); (0%nat, Timer)]).
    vm_compute. reflexivity. }
  destruct (stop_halts_dispatch ticking two_in_flight two_stopped Hs)
    as (Hq & _).
  exact (conj Hs (conj eq_refl (conj eq_refl Hq))).
Defined.

(** *** Restarting *)

Lemma loop_processing (Date_now : nat -> Z) r :
  isProcessing r = true ->
  is_Some (loop Date_now r).2 /\ isProcessing (loop Date_now r).1 = true.
Proof.
  intros Hp. unfold loop. rewrite Hp. case_bool_decide as Hfree.
  - destruct (queue (st r)) as [|t q] eqn:Hq; [cbn in Hfree; lia|].
    cbn [lookup list_lookup].
    unfold downloadTrack, downloadTrackClientSide, run_store.
    destruct (startDownload _ _ _ _). cbn. split; [by eexists | done].
  - case_bool_decide; cbn; split; (by eexists) || done.
Qed.

(** X13: a loop of start() ends only at a turn that finds the manager not
    processing, so stop() followed by start() before the suspended loops
    have been resumed ends none of them: the restart adds one more
    coroutine to those already suspended, every one of which goes on
    dispatching when it is resumed. *)
Theorem restart_adds_a_loop (Date_now : nat -> Z) (w : world) :
  (forall r r', loop Date_now r = (r', None) -> isProcessing r = false) /\
  exists t,
    tasks (start Date_now (stop w)) = tasks w ++ [t] /\
    isProcessing (rt (start Date_now (stop w))) = true.
Proof.
  split.
  - intros r r' Hloop. destruct (isProcessing r) eqn:Hp; [|done].
    destruct (loop_processing Date_now r Hp) as [[t Ht] _].
    rewrite Hloop in Ht. done.
  - unfold start, stop. cbn [rt isProcessing tasks].
    set (r := with_isProcessing true _).
    destruct (loop_processing Date_now r eq_refl) as [[t Ht] Hp].
    destruct (loop Date_now r) as [r' ot]. cbn in *. subst ot.
    by exists t.
Qed.

(** Three restarts in a row leave three loops suspended, two of them in a
    transfer. *)
Example three_loops :
  exists w,
    run ticking [AddToQueue five; Start; Stop; Start; Stop; Start]
      (initial_world 2) = Some w /\
    length (tasks w) = 3%nat /\
    length (downloading (st (rt w))) = 2%nat.
Proof. eexists. split; [vm_compute; reflexivity|]. by vm_compute. Qed.

(** *** Registered controllers *)

(** X14: in every reachable world, each controller registered in
    activeDownloads is unaborted and belongs to a suspended coroutine that
    is in the transfer of an item with the registered id, before its final
    sleep: the map holds no entry of a finished transfer, and stop() aborts
    transfers in flight only. *)
Theorem registered_controllers_in_flight (Date_now : nat -> Z) (mc : Z)
    (w : world) :
  reachable Date_now mc w -> registered_in_flight w.
Proof.
  induction 1 as [|w e w' _ IH Hstep].
  - intros i c Hi. unfold initial_world in Hi.
    cbn [activeDownloads rt] in Hi. by rewrite lookup_empty in Hi.
  - by eapply (registered_step Date_now e w w').
Qed.

Lemma registered_controllers_in_flight_witness :
  reachable ticking 2 two_in_flight /\
  size (activeDownloads (rt two_in_flight)) = 2%nat /\
  registered_in_flight two_in_flight.
Proof.
  assert (Hr : reachable ticking 2 two_in_flight).
  { eapply run_reachable; [apply reach_init | apply two_in_flight_run]. }
  exact (conj Hr (conj eq_refl
           (registered_controllers_in_flight ticking 2 _ Hr))).
Defined.

(** ** Outcomes of a transfer *)

Lemma completeDownload_completed (Date_now : nat -> Z) trackId fname s n x :
  find_id trackId (downloading s) = Some x ->
  exists x',
    completed (completeDownload Date_now trackId fname s n).1
      = completed s ++ [x'] /\
    filename x' = Some fname /\ progress x' = 100%Z /\
    item_status x' = completed_ /\ completedAt x' = Some (Date_now n) /\
    item_id x' = item_id x /\ tidal_id x' = tidal_id x /\
    title x' = title x /\ artist x' = artist x.
Proof.
  intros H. unfold completeDownload. rewrite H. unfold_clocked. cbn.
  eexists. split; [reflexivity|]. done.
Qed.

(** X15: an HTTP error fails the item with the status in its error text.
    When an unaborted transfer suspended in its fetch is resumed with a
    response that is not ok, the item with its id leaves downloading and is
    appended to failed with the error HTTP status: statusText, the
    controller is unregistered, the queue and completed are untouched, and
    the transfer goes to its final sleep. *)
Theorem http_error_fails_item (Date_now : nat -> Z) (w : world) (i : nat)
    (track : item) (ctrl : nat) (x : item) (status_ : Z) (statusText : string)
    (contentLength : option Z) :
  tasks w !! i = Some (Transferring track ctrl AwaitFetch) ->
  aborted ctrl (rt w) = false ->
  find_id (item_id track) (downloading (st (rt w))) = Some x ->
  exists w' x',
    step Date_now (Resume i (Response false status_ statusText contentLength)) w
      = Some w' /\
    failed (st (rt w')) = failed (st (rt w)) ++ [x'] /\
    error x' = Some ("HTTP " +:+ show_Z status_ +:+ ": " +:+ statusText) /\
    item_id x' = item_id x /\ tidal_id x' = tidal_id x /\
    downloading (st (rt w')) =
      without_id (item_id track) (downloading (st (rt w))) /\
    queue (st (rt w')) = queue (st (rt w)) /\
    completed (st (rt w')) = completed (st (rt w)) /\
    activeDownloads (rt w') = delete (item_id track) (activeDownloads (rt w)) /\
    tasks w' !! i = Some (Transferring track ctrl AwaitRateLimit).
Proof.
  intros Ht Hab Hx. cbn [step]. rewrite Ht. cbn [mbind option_bind].
  unfold resume_task, resume_transfer. rewrite Hab.
  unfold caught, release, run_store.
  set (msg := "HTTP " +:+ show_Z status_ +:+ ": " +:+ statusText).
  destruct (failDownload_failed Date_now (item_id track) msg (st (rt w))
              (reads (rt w)) x Hx) as (x' & Hf & He & _ & Hid & Htid & _).
  pose proof (failDownload_downloading Date_now (item_id track) msg
                (st (rt w)) (reads (rt w))) as [_ Hd].
  pose proof (failDownload_queue Date_now (item_id track) msg
                (st (rt w)) (reads (rt w))) as Hq.
  assert (Hc : completed (failDownload Date_now (item_id track) msg
                            (st (rt w)) (reads (rt w))).1
               = completed (st (rt w))).
  { unfold failDownload. by rewrite Hx. }
  destruct (failDownload _ _ _ _ _) as [s' n']. cbn in *.
  eexists. exists x'. split; [reflexivity|]. cbn.
  split_and!; try done.
  apply list_lookup_insert_eq. by eapply lookup_lt_Some.
Qed.

Lemma http_error_fails_item_witness :
  exists track ctrl x w',
    tasks one_in_flight !! 0%nat = Some (Transferring track ctrl AwaitFetch) /\
    aborted ctrl (rt one_in_flight) = false /\
    find_id (item_id track) (downloading (st (rt one_in_flight))) = Some x /\
    step ticking (Resume 0 (Response false 404 "Not Found" None))
      one_in_flight = Some w' /\
    error <$> failed (st (rt w')) = [Some "HTTP 404: Not Found"].
Proof.
  do 3 eexists.
  destruct (http_error_fails_item ticking one_in_flight 0 _ _ _ 404
              "Not Found" None
              ltac:(vm_compute; reflexivity) ltac:(vm_compute; reflexivity)
              ltac:(vm_compute; reflexivity))
    as (w' & x' & Hstep & Hf & He & _).
  exists w'. split_and!; [vm_compute; reflexivity.. | exact Hstep |].
  rewrite Hf, fmap_app. change (error <$> [x']) with [error x'].
  rewrite He. vm_compute. reflexivity.
Defined.

(** X16: a transfer read to its end completes its item. When an unaborted
    transfer suspended in a read is resumed with the end of the body, the
    item with its id leaves downloading and is appended to completed with
    progress 100, the current time, and the sanitized name built from the
    artist and title the transfer was started with, whether or not a total
    was known; the controller is unregistered and nothing is added to
    failed. *)
Theorem end_of_body_completes_item (Date_now : nat -> Z) (w : world)
    (i : nat) (track : item) (ctrl : nat) (x : item)
    (totalBytes receivedBytes : Z) :
  tasks w !! i = Some (Transferring track ctrl
                         (AwaitRead totalBytes receivedBytes)) ->
  aborted ctrl (rt w) = false ->
  find_id (item_id track) (downloading (st (rt w))) = Some x ->
  exists w' x',
    step Date_now (Resume i Done) w = Some w' /\
    completed (st (rt w')) = completed (st (rt w)) ++ [x'] /\
    filename x' =
      Some (sanitizeFilename (flac_name (artist track) (title track))) /\
    progress x' = 100%Z /\ item_status x' = completed_ /\
    completedAt x' = Some (Date_now (reads (rt w))) /\
    item_id x' = item_id x /\ tidal_id x' = tidal_id x /\
    downloading (st (rt w')) =
      without_id (item_id track) (downloading (st (rt w))) /\
    failed (st (rt w')) = failed (st (rt w)) /\
    activeDownloads (rt w') = delete (item_id track) (activeDownloads (rt w)) /\
    tasks w' !! i = Some (Transferring track ctrl AwaitRateLimit).
Proof.
  intros Ht Hab Hx. cbn [step]. rewrite Ht. cbn [mbind option_bind].
  unfold resume_task, resume_transfer. rewrite Hab.
  unfold release, run_store.
  set (fname := sanitizeFilename (flac_name (artist track) (title track))).
  destruct (completeDownload_completed Date_now (item_id track) fname
              (st (rt w)) (reads (rt w)) x Hx)
    as (x' & Hc & Hn & Hp & Hs & Hat & Hid & Htid & _).
  pose proof (completeDownload_downloading Date_now (item_id track) fname
                (st (rt w)) (reads (rt w))) as [_ Hd].
  assert (Hf : failed (completeDownload Date_now (item_id track) fname
                         (st (rt w)) (reads (rt w))).1
               = failed (st (rt w))).
  { unfold completeDownload. by rewrite Hx. }
  destruct (completeDownload _ _ _ _ _) as [s' n']. cbn in *.
  eexists. exists x'. split; [reflexivity|]. cbn.
  split_and!; try done.
  apply list_lookup_insert_eq. by eapply lookup_lt_Some.
Qed.

Lemma end_of_body_completes_item_witness :
  exists track ctrl x w',
    tasks reading !! 0%nat = Some (Transferring track ctrl (AwaitRead 0 7)) /\
    aborted ctrl (rt reading) = false /\
    find_id (item_id track) (downloading (st (rt reading))) = Some x /\
    step ticking (Resume 0 Done) reading = Some w' /\
    filename <$> completed (st (rt w')) = [Some "AC_DC - Who_.flac"].
Proof.
  do 3 eexists.
  destruct (end_of_body_completes_item ticking reading 0 _ _ _ 0 7
              ltac:(vm_compute; reflexivity) ltac:(vm_compute; reflexivity)
              ltac:(vm_compute; reflexivity))
    as (w' & x' & Hstep & Hc & Hn & _).
  exists w'. split_and!; [vm_compute; reflexivity.. | exact Hstep |].
  rewrite Hc, fmap_app. change (filename <$> [x']) with [filename x'].
  rewrite Hn. vm_compute. reflexivity.
Defined.

(** ** The theme hook *)

(** X17: a theme set with setTheme is the theme a later mount starts
    with, whatever the system preference, unless it is the empty string: an
    empty stored theme is ignored like a missing one, and the initial theme
    is then dark or light after the system preference. *)
Theorem theme_survives_reload (newTheme : string)
    (storage : gmap string string) (prefersDark : option bool) :
  (newTheme <> "" ->
   initialTheme (Some (setTheme newTheme storage).2) prefersDark
     = (setTheme newTheme storage).1) /\
  initialTheme (Some (setTheme "" storage).2) prefersDark
    = initialTheme None prefersDark /\
  (initialTheme None prefersDark = "dark" \/
   initialTheme None prefersDark = "light").
Proof.
  unfold initialTheme, setTheme. cbn [fst snd mbind option_bind].
  rewrite !lookup_insert_eq. split_and!.
  - intros Hne. by rewrite decide_False.
  - done.
  - destruct (default false prefersDark); auto.
Qed.

Lemma theme_survives_reload_witness :
  "nord" <> "" /\
  initialTheme (Some (setTheme "nord" {["theme" := "dark"]}).2) (Some false)
    = "nord".
Proof.
  assert (H : "nord" <> "") by discriminate.
  destruct (theme_survives_reload "nord" {["theme" := "dark"]} (Some false))
    as [Hset _].
  exact (conj H (Hset H)).
Defined.

Lemma elem_of_cleared (keys : list string) (classes : gset string) c :
  c ∈ foldl (fun cl t => cl ∖ {[t]}) classes keys <->
  c ∈ classes /\ c ∉ keys.
Proof.
  revert classes. induction keys as [|k keys IH]; intros classes; cbn.
  - split; [intros H; split; [done | apply not_elem_of_nil] | tauto].
  - rewrite IH, not_elem_of_cons, elem_of_difference, elem_of_singleton.
    tauto.
Qed.

(** X18: when the theme effect succeeds, the class list of the document
    element holds exactly the classes it held that are not theme names,
    and the class of the theme unless the theme is light: at most one theme
    name is left, running the effect again changes nothing, and a class
    added for a theme that is not in themeNames is never removed by a later
    run of the effect. *)
Theorem applyTheme_classes (theme : string) (classes classes' : gset string) :
  applyTheme theme classes = Some classes' ->
  (forall c, c ∈ classes' <->
     (c = theme /\ theme <> "light") \/ (c ∈ classes /\ c ∉ theme_keys)) /\
  (forall k, k ∈ theme_keys -> k ∈ classes' -> k = theme) /\
  applyTheme theme classes' = Some classes' /\
  (forall theme2 classes'',
     theme ∉ theme_keys -> applyTheme theme2 classes' = Some classes'' ->
     theme ∈ classes'').
Proof.
  intros Happ.
  assert (Hmem : forall th cl cl', applyTheme th cl = Some cl' ->
            forall c, c ∈ cl' <->
              (c = th /\ th <> "light") \/ (c ∈ cl /\ c ∉ theme_keys)).
  { intros th cl cl' H c. unfold applyTheme, classList_add in H.
    repeat case_decide; try case_match; simplify_eq;
      rewrite ?elem_of_union, ?elem_of_singleton, elem_of_cleared;
      intuition congruence. }
  split_and!.
  - by apply Hmem.
  - intros k Hk Hin. apply (Hmem _ _ _ Happ) in Hin. tauto.
  - assert (Hsome : exists cl2, applyTheme theme classes' = Some cl2).
    { unfold applyTheme, classList_add in *.
      repeat case_decide; try case_match; simplify_eq; by eexists. }
    destruct Hsome as [cl2 H2]. rewrite H2. f_equal. apply set_eq. intros c.
    rewrite (Hmem _ _ _ H2 c), !(Hmem _ _ _ Happ). tauto.
  - intros theme2 classes'' Hunk H2. apply (Hmem _ _ _ H2). right.
    split; [|done]. apply (Hmem _ _ _ Happ). left. split; [done|].
    intros ->. apply Hunk. compute_decide.
Qed.

Lemma applyTheme_classes_witness :
  applyTheme "nord" {["dark"; "app"]} = Some {["nord"; "app"]} /\
  applyTheme "nord" {["nord"; "app"]} = Some {["nord"; "app"]} /\
  applyTheme "light" {["nord"; "app"]} = Some {["app"]}.
Proof.
  assert (H : applyTheme "nord" {["dark"; "app"]} = Some {["nord"; "app"]})
    by (vm_compute; reflexivity).
  destruct (applyTheme_classes "nord" _ _ H) as (_ & _ & Hidem & _).
  refine (conj H (conj Hidem _)). vm_compute. reflexivity.
Defined.

(** ** The search page *)

Lemma addToQueue_queue_length (Date_now : nat -> Z) tracks s n :
  length (queue (addToQueue Date_now tracks s n).1)
    = (length (queue s) + addedCount tracks s)%nat.
Proof.
  destruct (addToQueue_skips_existing Date_now tracks s n) as (Hq & _).
  rewrite <- (length_fmap tidal_id), Hq, length_app, !length_fmap.
  f_equal. unfold addedCount. rewrite <- (length_fmap t_tidal_id).
  f_equal. unfold survivors, existingIds. fold (catalog_ids s). clear Hq.
  induction tracks as [|t ts IH]; [done|].
  rewrite fmap_cons, !filter_cons.
  destruct (decide (t_tidal_id t ∉ catalog_ids s)) as [Hin|Hin].
  - rewrite decide_True by (by rewrite elem_of_list_to_set).
    by rewrite fmap_cons, IH.
  - rewrite decide_False by (by rewrite elem_of_list_to_set). done.
Qed.

Lemma addToQueue_covered (Date_now : nat -> Z) tracks s n :
  (forall t, t ∈ tracks -> t_tidal_id t ∈ catalog_ids s) ->
  addToQueue Date_now tracks s n = (s, n).
Proof. intros H. unfold addToQueue. by rewrite survivors_none. Qed.

(** X19: the alert of handleAddToQueue counts the selected results, not
    the tracks queued. The queue grows by the number of selected results
    whose catalog id was in none of queue, downloading and completed, which
    is at most the number in the alert; the selection is emptied; and the
    same selection added a second time raises the same alert while the
    store stays as the first call left it. *)
Theorem alert_counts_selection (Date_now : nat -> Z) (results : list result)
    (selected : gset Z) (s : store) (n n' : nat) :
  let chosen := filter (fun r => r_id r ∈ selected) results in
  let a := (handleAddToQueue Date_now results selected s n).1 in
  let b := (handleAddToQueue Date_now results selected (a_store a) n').1 in
  a_alert a = "Added " +:+ show_Z (Z.of_nat (length chosen))
              +:+ " tracks to download queue!" /\
  length (queue (a_store a)) =
    (length (queue s) + addedCount (selectedTracks results selected) s)%nat /\
  (addedCount (selectedTracks results selected) s <= length chosen)%nat /\
  a_selected a = ∅ /\
  a_alert b = a_alert a /\ a_store b = a_store a.
Proof.
  cbn zeta.
  assert (Ha : forall s0 n0,
            (handleAddToQueue Date_now results selected s0 n0).1 =
              Added (addToQueue Date_now (selectedTracks results selected)
                       s0 n0).1
                    ("Added " +:+
                     show_Z (Z.of_nat (length (selectedTracks results selected)))
                     +:+ " tracks to download queue!") ∅).
  { intros s0 n0. unfold handleAddToQueue. unfold_clocked.
    by destruct (addToQueue _ _ _ _). }
  assert (Hsel : length (selectedTracks results selected) =
                 length (filter (fun r => r_id r ∈ selected) results))
    by apply length_fmap.
  rewrite !Ha. cbn [a_alert a_store a_selected]. rewrite Hsel.
  split_and!; try done.
  - apply addToQueue_queue_length.
  - unfold addedCount, survivors. rewrite <- Hsel. apply length_filter.
  - rewrite addToQueue_covered; [done|].
    intros t Ht. by apply addToQueue_covers.
Qed.

(** X20: toggling a track twice gives back the selection; one toggle
    changes whether that track is selected and nothing else, so a track
    toggled off is not among the descriptors handed to addToQueue. *)
Theorem toggleTrack_twice (trackId : Z) (selected : gset Z)
    (results : list result) :
  toggleTrack trackId (toggleTrack trackId selected) = selected /\
  (trackId ∈ toggleTrack trackId selected <-> trackId ∉ selected) /\
  (forall j, j <> trackId ->
     (j ∈ toggleTrack trackId selected <-> j ∈ selected)) /\
  (trackId ∈ selected ->
   trackId ∉ t_tidal_id <$>
     selectedTracks results (toggleTrack trackId selected)).
Proof.
  assert (Hoff : trackId ∈ selected ->
                 toggleTrack trackId selected = selected ∖ {[trackId]}).
  { intros H. unfold toggleTrack. by rewrite decide_True. }
  assert (Hon : trackId ∉ selected ->
                toggleTrack trackId selected = selected ∪ {[trackId]}).
  { intros H. unfold toggleTrack. by rewrite decide_False. }
  split_and!.
  - apply set_eq. intros j. unfold toggleTrack at 1.
    destruct (decide (trackId ∈ selected)) as [Hin|Hin].
    + rewrite (Hoff Hin). rewrite decide_False
        by (rewrite elem_of_difference, elem_of_singleton; tauto).
      rewrite elem_of_union, elem_of_difference, elem_of_singleton.
      destruct (decide (j = trackId)) as [->|]; tauto.
    + rewrite (Hon Hin). rewrite decide_True
        by (rewrite elem_of_union, elem_of_singleton; tauto).
      rewrite elem_of_difference, elem_of_union, elem_of_singleton.
      destruct (decide (j = trackId)) as [->|]; tauto.
  - destruct (decide (trackId ∈ selected)) as [Hin|Hin].
    + rewrite (Hoff Hin), elem_of_difference, elem_of_singleton. tauto.
    + rewrite (Hon Hin), elem_of_union, elem_of_singleton. tauto.
  - intros j Hj. destruct (decide (trackId ∈ selected)) as [Hin|Hin].
    + rewrite (Hoff Hin), elem_of_difference, elem_of_singleton. tauto.
    + rewrite (Hon Hin), elem_of_union, elem_of_singleton. tauto.
  - intros Hin Hmem. rewrite (Hoff Hin) in Hmem. unfold selectedTracks in Hmem.
    apply list_elem_of_fmap in Hmem as (t & Ht & Hmem).
    apply list_elem_of_fmap in Hmem as (r & -> & Hr).
    apply list_elem_of_filter in Hr as [Hr _]. cbn in Ht. subst trackId.
    rewrite elem_of_difference, elem_of_singleton in Hr. tauto.
Qed.

Lemma toggleTrack_twice_witness :
  (2%Z ∈ ({[1%Z; 2%Z]} : gset Z)) /\
  toggleTrack 2 {[1%Z; 2%Z]} = {[1%Z]} /\
  (2%Z ∉ t_tidal_id <$>
     selectedTracks [Result 1 "a" "x" None; Result 2 "b" "x" None]
       (toggleTrack 2 {[1%Z; 2%Z]})).
Proof.
  assert (Hin : 2%Z ∈ ({[1%Z; 2%Z]} : gset Z)) by compute_decide.
  destruct (toggleTrack_twice 2 {[1%Z; 2%Z]}
              [Result 1 "a" "x" None; Result 2 "b" "x" None])
    as (_ & _ & _ & Hoff).
  refine (conj Hin (conj _ (Hoff Hin))). vm_compute. reflexivity.
Defined.

(** ** The queue panel *)

Lemma loop_isProcessing (Date_now : nat -> Z) r :
  isProcessing (loop Date_now r).1 = isProcessing r.
Proof.
  unfold loop. destruct (isProcessing r) eqn:Hp; [|done].
  case_bool_decide.
  - destruct (queue (st r) !! 0%nat); [|done].
    unfold downloadTrack, downloadTrackClientSide, run_store.
    by destruct (startDownload _ _ _ _).
  - by case_bool_decide.
Qed.

Lemma run_store_isProcessing f r :
  isProcessing (run_store f r) = isProcessing r.
Proof. unfold run_store. by destruct (f (st r) (reads r)). Qed.

Lemma resume_isProcessing (Date_now : nat -> Z) t resp r r' t' :
  resume_task Date_now t resp r = Some (r', t') ->
  isProcessing r' = isProcessing r.
Proof.
  intros Hres. pose proof (loop_isProcessing Date_now r) as Hloop.
  destruct t as [ms|track ctrl ph]; cbn in Hres.
  - destruct resp; simplify_eq. by rewrite Hres in Hloop.
  - destruct ph, resp; cbn in Hres; simplify_eq;
      repeat (case_match; simplify_eq);
      unfold caught, cancelled, release in *; simplify_eq; cbn;
      try done; try apply run_store_isProcessing.
    by rewrite Hres in Hloop.
Qed.

Lemma step_isProcessing (Date_now : nat -> Z) e w w' :
  e <> Start -> e <> Stop -> step Date_now e w = Some w' ->
  isProcessing (rt w') = isProcessing (rt w).
Proof.
  intros Hs Hp Hstep. destruct e; cbn [step] in Hstep; simplify_eq;
    try done; cbn; try apply run_store_isProcessing.
  destruct (tasks w !! i) as [t|]; cbn in Hstep; [|done].
  destruct (resume_task Date_now t r (rt w)) as [[r' t']|] eqn:E;
    cbn in Hstep; simplify_eq.
  cbn. by eapply resume_isProcessing.
Qed.

(** X21: as long as the manager is started and stopped through the panel
    only, the isRunning state of the panel is the isProcessing flag of the
    manager: from a panel where the two agree, they agree after any run of
    start and stop clicks, other store actions and resumptions of the event
    loop, so the button shown is always the one that applies. *)
Theorem panel_mirrors_manager (Date_now : nat -> Z) (cs : list click)
    (p p' : panel) :
  isRunning p = isProcessing (rt (p_world p)) ->
  panel_run Date_now cs p = Some p' ->
  isRunning p' = isProcessing (rt (p_world p')).
Proof.
  revert p. induction cs as [|c cs IH]; intros p Hp Hrun; cbn in Hrun.
  - by simplify_eq.
  - destruct (panel_step Date_now c p) as [p1|] eqn:E; cbn in Hrun; [|done].
    apply (IH p1); [|done]. clear IH Hrun.
    destruct c as [| |e]; cbn in E.
    + destruct (isRunning p) eqn:Hr; [done|]. case_decide; [done|].
      simplify_eq. cbn. unfold start. rewrite <- Hp.
      destruct (loop_processing Date_now
                  (with_isProcessing true (rt (p_world p))) eq_refl)
        as [_ Hproc].
      by destruct (loop Date_now (with_isProcessing true (rt (p_world p)))).
    + destruct (isRunning p); by simplify_eq.
    + destruct (step Date_now e (p_world p)) as [w1|] eqn:Es;
        destruct e; cbn in E; simplify_eq; cbn;
        rewrite Hp; symmetry;
        refine (step_isProcessing Date_now _ _ _ _ _ Es); discriminate.
Qed.

Lemma panel_mirrors_manager_witness :
  exists p',
    isRunning (Panel false (initial_world 3))
      = isProcessing (rt (p_world (Panel false (initial_world 3)))) /\
    panel_run ticking
      [Elsewhere (AddToQueue five); ClickStart;
       Elsewhere (Resume 0 (StreamData (Some "u"))); ClickStop]
      (Panel false (initial_world 3)) = Some p' /\
    isRunning p' = false /\ isProcessing (rt (p_world p')) = false.
Proof.
  eexists.
  assert (Hrun : panel_run ticking
            [Elsewhere (AddToQueue five); ClickStart;
             Elsewhere (Resume 0 (StreamData (Some "u"))); ClickStop]
            (Panel false (initial_world 3)) = Some _)
    by (vm_compute; reflexivity).
  pose proof (panel_mirrors_manager ticking _ (Panel false (initial_world 3))
                _ eq_refl Hrun) as Hm.
  refine (conj eq_refl (conj Hrun (conj eq_refl _))).
  rewrite <- Hm. reflexivity.
Defined.
